(** * Document extraction pipeline of [DataDictionaryIndex]

    A shallow embedding of [src/imas_mcp_server/data_dictionary_index.py]:
    the index name, the documentation composer, the upward walk that builds
    one entry per named schema element, the document generator and the
    batcher, followed by the properties the specification states about them.

    Python [str] values are modelled as [string] holding the UTF-8 bytes of
    the text: byte-wise lexicographic order is code-point order, the
    separator [/] is a single byte that never occurs inside a multi-byte
    sequence, and [encode("utf-8")] is the identity. *)

From Stdlib Require Import String Ascii ZArith List.
From stdpp Require Import gmap strings list sorting.

Set Warnings "-register-all".

(** ** Python primitives *)

Module Py.

(** [bool(s)] for a [str]. *)
Definition truthy (s : string) : bool :=
  match s with EmptyString => false | String _ _ => true end.

(** [bool(x)] for an [Optional[str]]. *)
Definition otruthy (o : option string) : bool :=
  match o with Some s => truthy s | None => false end.

(** [s.count(c)] for a one-character needle. *)
Fixpoint count (c : ascii) (s : string) : nat :=
  match s with
  | EmptyString => 0
  | String a s' => (if Ascii.eqb a c then 1 else 0) + count c s'
  end.

(** [sep.join(l)]. *)
Fixpoint join (sep : string) (l : list string) : string :=
  match l with
  | [] => ""
  | [x] => x
  | x :: l' => x +:+ sep +:+ join sep l'
  end.

(** [s * n]. *)
Fixpoint repeat (s : string) (n : nat) : string :=
  match n with
  | 0 => ""
  | S n' => s +:+ repeat s n'
  end.

(** [s[:n]]. *)
Definition slice_to (n : nat) (s : string) : string := substring 0 n s.

(** A [dict] with [str] keys and values, in insertion order. *)
Definition Dict : Type := list (string * string).

Definition keys (d : Dict) : list string := map fst d.

(** [d.get(k)]. *)
Fixpoint get (d : Dict) (k : string) : option string :=
  match d with
  | [] => None
  | (k', v) :: d' => if String.eqb k' k then Some v else get d' k
  end.

(** [d.get(k, default)]. *)
Definition get_default (d : Dict) (k default : string) : string :=
  match get d k with Some v => v | None => default end.

(** [k in d]. *)
Definition contains (d : Dict) (k : string) : bool :=
  match get d k with Some _ => true | None => false end.

(** [d[k] = v]: an existing key keeps its position, a new key goes last. *)
Fixpoint set (d : Dict) (k v : string) : Dict :=
  match d with
  | [] => [(k, v)]
  | (k', v') :: d' =>
      if String.eqb k' k then (k', v) :: d' else (k', v') :: set d' k v
  end.

(** [sorted(l)] through the comparison [lt] (Python sorts with [<] alone
    and is stable): an element goes in front of the first element of the
    sorted tail that is not smaller than it. *)
Section Sorted.
Context {A : Type} (lt : A → A → bool).

Fixpoint insert_sorted (x : A) (l : list A) : list A :=
  match l with
  | [] => [x]
  | y :: l' => if lt y x then y :: insert_sorted x l' else x :: y :: l'
  end.

Fixpoint sorted (l : list A) : list A :=
  match l with
  | [] => []
  | x :: l' => insert_sorted x (sorted l')
  end.

(** [x <= y] as the sort sees it: [not (y < x)]. *)
Definition sort_le (x y : A) : Prop := lt y x = false.
End Sorted.

(** [sorted(l, key=key)] for an integer key. *)
Definition sorted_by_key {A : Type} (key : A → nat) (l : list A) : list A :=
  sorted (λ x y, Nat.ltb (key x) (key y)) l.

(** [sorted(l)] for a list of [str]. *)
Definition sorted_str (l : list string) : list string :=
  sorted String.ltb l.

(** [l[-1]] and [l[:-1]]. *)
Definition last_item {A : Type} (l : list A) : option A := last l.
Definition but_last {A : Type} (l : list A) : list A := removelast l.

End Py.

Import Py.

(** ** The documentation composer *)

Definition slash : ascii := "/"%char.
Definition nl : string := String (ascii_of_nat 10) "".

(** [x.count("/")]. *)
Definition slashes (path : string) : nat := count slash path.

Definition context_header : string := "## Hierarchical Context".

(** The block of one context path, lines 231 to 244. *)
Definition context_block (path_key doc : string) : string :=
  let depth := slashes path_key + 1 in
  if (depth + 2 <=? 6)%nat then
    let header_level := depth + 2 in
    let header := Py.repeat "#" header_level in
    header +:+ " " +:+ path_key +:+ nl +:+ doc
  else
    let indent_level := depth + 2 - 6 in
    let indent := Py.repeat "  " indent_level in
    "###### " +:+ indent +:+ "**" +:+ path_key +:+ "**" +:+ nl +:+ indent +:+ doc.

Definition leaf_block (deepest_path leaf_doc : string) : string :=
  "**" +:+ deepest_path +:+ "**" +:+ nl +:+ leaf_doc.

(** [paths_by_depth]. *)
Definition paths_by_depth (documentation_parts : Dict) : list string :=
  sorted_by_key slashes (keys documentation_parts).

(** The blocks appended by the loop over [remaining_paths];
    [documentation_parts[path_key]] is defined for every key of the map. *)
Definition context_blocks (documentation_parts : Dict)
    (remaining_paths : list string) : list string :=
  flat_map (λ path_key,
      let doc := get_default documentation_parts path_key "" in
      if truthy doc then [context_block path_key doc] else [])
    remaining_paths.

(** [paths_by_depth[-1]] and [paths_by_depth[:-1]]. *)
Definition deepest_path (documentation_parts : Dict) : option string :=
  last_item (paths_by_depth documentation_parts).

Definition remaining_paths (documentation_parts : Dict) : list string :=
  but_last (paths_by_depth documentation_parts).

(** [doc_sections] as it stands before the final join. *)
Definition doc_sections (documentation_parts : Dict) : list string :=
  match deepest_path documentation_parts with
  | None => []
  | Some deepest_path =>
      let leaf_doc := get_default documentation_parts deepest_path "" in
      let lead := if truthy leaf_doc then [leaf_block deepest_path leaf_doc] else [] in
      lead ++
      match remaining_paths documentation_parts with
      | [] => []
      | _ :: _ =>
          context_header
          :: context_blocks documentation_parts (remaining_paths documentation_parts)
      end
  end.

Definition _build_hierarchical_documentation (documentation_parts : Dict) : string :=
  match documentation_parts with
  | [] => ""
  | _ :: _ => join (nl +:+ nl) (doc_sections documentation_parts)
  end.

(** ** The schema tree ([xml.etree.ElementTree]) *)

Module ET.

(** An element: its tag, its attributes and its children in document
    order. *)
Inductive Element : Type :=
| Elem (tag : string) (attrib : Dict) (children : list Element).

Definition tag (e : Element) : string := let 'Elem t _ _ := e in t.
Definition attrib (e : Element) : Dict := let 'Elem _ a _ := e in a.
Definition children (e : Element) : list Element := let 'Elem _ _ cs := e in cs.

(** Python compares and hashes elements by identity.  The identity of an
    element of a tree is its position: the child indices from the root. *)
Abbreviation Loc := (list nat).

(** The element at a position. *)
Fixpoint at_loc (e : Element) (l : Loc) : option Element :=
  match l with
  | [] => Some e
  | i :: l' =>
      match children e !! i with
      | Some c => at_loc c l'
      | None => None
      end
  end.

(** [e.iter()]: the element itself and all its descendants, in document
    order, as positions relative to [e]. *)
Fixpoint iter (e : Element) : list Loc :=
  match e with
  | Elem _ _ cs =>
      [] :: concat (imap (λ i ls, List.map (cons i) ls) (List.map iter cs))
  end.

(** [elem.get(key)] on the element at position [l] of the tree [root]. *)
Definition get (root : Element) (l : Loc) (key : string) : option string :=
  match at_loc root l with
  | Some e => Py.get (attrib e) key
  | None => None
  end.

(** [elem.get(key, default)]. *)
Definition get_default (root : Element) (l : Loc) (key default : string) : string :=
  match get root l key with Some v => v | None => default end.

Definition tag_at (root : Element) (l : Loc) : option string :=
  tag <$> at_loc root l.

(** [node.findall(".//*[@name]")]: the proper descendants of [node] that
    carry a [name] attribute, in document order. *)
Definition findall_named (root : Element) (node : Loc) : list Loc :=
  match at_loc root node with
  | Some e =>
      filter (λ l, is_Some (get root l "name"))
             (List.map (app node) (tail (iter e)))
  | None => []
  end.

(** [node.findall(".//IDS[@name]")]. *)
Definition findall_IDS_named (root : Element) (node : Loc) : list Loc :=
  filter (λ l, tag_at root l = Some "IDS") (findall_named root node).

End ET.

Import ET.

(** ** The extractor *)

(** [{c: p for p in root_node.iter() for c in p}]. *)
Definition parent_pairs (root : Element) : list (Loc * Loc) :=
  flat_map (λ p,
      match at_loc root p with
      | Some e => imap (λ i _, (p ++ [i], p)) (children e)
      | None => []
      end)
    (iter root).

Definition parent_map_of (root : Element) : gmap Loc Loc :=
  foldl (λ m cp, <[cp.1 := cp.2]> m) ∅ (parent_pairs root).

Definition as_parent : string := "as_parent".

(** The local variables of [_build_element_entry] that the loop updates. *)
Record Walk : Type := MkWalk {
  walker : option Loc;
  path_parts : list string;
  documentation_parts : Dict;
  units : string
}.

(** One iteration of the loop body, lines 263 to 278, at [walker = w]. *)
Definition walk_step (root : Element) (parent_map : gmap Loc Loc)
    (ids_name : string) (w : Loc) (st : Walk) : Walk :=
  let walker_name := ET.get root w "name" in
  let '(path_parts1, documentation_parts1) :=
    match walker_name with
    | Some name =>
        if truthy name then
          let pp := name :: path_parts st in
          let walker_doc := ET.get root w "documentation" in
          match walker_doc with
          | Some doc =>
              if truthy doc then
                let doc_key := join "/" (ids_name :: pp) in
                (pp, Py.set (documentation_parts st) doc_key doc)
              else (pp, documentation_parts st)
          | None => (pp, documentation_parts st)
          end
        else (path_parts st, documentation_parts st)
    | None => (path_parts st, documentation_parts st)
    end in
  let parent_walker := parent_map !! w in
  let units1 :=
    match parent_walker with
    | Some p =>
        if String.eqb (units st) as_parent then
          match ET.get root p "units" with
          | Some parent_units =>
              if truthy parent_units then parent_units else units st
          | None => units st
          end
        else units st
    | None => units st
    end in
  MkWalk parent_walker path_parts1 documentation_parts1 units1.

(** [while walker is not None and walker != ids_node]: the loop, with a bound
    on the number of iterations. *)
Fixpoint walk_loop (fuel : nat) (root : Element) (parent_map : gmap Loc Loc)
    (ids_node : Loc) (ids_name : string) (st : Walk) : Walk :=
  match fuel with
  | 0 => st
  | S fuel' =>
      match walker st with
      | None => st
      | Some w =>
          if decide (w = ids_node) then st
          else walk_loop fuel' root parent_map ids_node ids_name
                 (walk_step root parent_map ids_name w st)
      end
  end.

(** The loop condition: [true] while the loop has to go on. *)
Definition walking (ids_node : Loc) (st : Walk) : bool :=
  match walker st with
  | None => false
  | Some w => bool_decide (w ≠ ids_node)
  end.

(** A position is left after at most as many moves to the parent as it has
    indices. *)
Definition walk_fuel (elem : Loc) : nat := S (length elem).

Definition _build_element_entry (root : Element) (elem ids_node : Loc)
    (ids_name : string) (parent_map : gmap Loc Loc) : option Dict :=
  let st0 := MkWalk (Some elem) [] [] (ET.get_default root elem "units" "") in
  let st := walk_loop (walk_fuel elem) root parent_map ids_node ids_name st0 in
  match path_parts st with
  | [] => None
  | _ :: _ =>
      let ids_doc := ET.get root ids_node "documentation" in
      let documentation_parts :=
        if otruthy ids_doc
        then Py.set (documentation_parts st) ids_name (default "" ids_doc)
        else documentation_parts st in
      let full_path := ids_name +:+ "/" +:+ join "/" (path_parts st) in
      let combined_documentation :=
        _build_hierarchical_documentation documentation_parts in
      Some [("path", full_path);
            ("documentation",
              if truthy combined_documentation then combined_documentation
              else ET.get_default root elem "documentation" "");
            ("units", if truthy (units st) then units st else "none");
            ("ids_name", ids_name)]
  end.

(** [_get_ids_set]: the configured set, or every non-empty IDS name of the
    schema. *)
Definition _get_ids_set (root : Element) (ids_set : option (gset string)) : gset string :=
  match ids_set with
  | Some s => s
  | None =>
      foldl (λ all_ids_names elem,
          match ET.get root elem "name" with
          | Some name => if truthy name then {[name]} ∪ all_ids_names else all_ids_names
          | None => all_ids_names
          end)
        ∅ (findall_IDS_named root [])
  end.

(** The records of one top-level structure, lines 400 to 419. *)
Definition ids_documents (root : Element) (parent_map : gmap Loc Loc)
    (ids_node : Loc) : list Dict :=
  match ET.get root ids_node "name" with
  | Some ids_name =>
      if truthy ids_name then
        [("path", ids_name);
         ("documentation", ET.get_default root ids_node "documentation" "");
         ("units", ET.get_default root ids_node "units" "none");
         ("ids_name", ids_name)]
        :: omap (λ elem, _build_element_entry root elem ids_node ids_name parent_map)
                (findall_named root ids_node)
      else []
  | None => []
  end.

(** [node.get("name") in ids_to_process]. *)
Definition name_in (root : Element) (ids_to_process : gset string) (node : Loc) : bool :=
  match ET.get root node "name" with
  | Some name => bool_decide (name ∈ ids_to_process)
  | None => false
  end.

(** [_get_document]: the records in the order they are yielded. *)
Definition _get_document (root : Element) (ids_set : option (gset string)) : list Dict :=
  let ids_to_process := _get_ids_set root ids_set in
  let parent_map := parent_map_of root in
  let ids_nodes :=
    filter (λ node, name_in root ids_to_process node) (findall_IDS_named root []) in
  flat_map (ids_documents root parent_map) ids_nodes.

(** [ids_names]: the names to process, sorted. *)
Definition ids_names (root : Element) (ids_set : option (gset string)) : list string :=
  sorted_str (elements (_get_ids_set root ids_set)).

(** [_total_elements]: one for each selected structure, plus its named
    descendants. *)
Definition _total_elements (root : Element) (ids_set : option (gset string)) : nat :=
  let ids_to_process := _get_ids_set root ids_set in
  let ids_nodes :=
    filter (λ node, name_in root ids_to_process node) (findall_IDS_named root []) in
  foldl (λ total_elements ids_node,
           total_elements + 1 + length (findall_named root ids_node))
        0 ids_nodes.

(** The schema of the end-to-end scenario: [X] holding [Y] holding [Z]. *)
Definition schema_XYZ : Element :=
  Elem "IDSs" []
    [Elem "IDS" [("name", "X"); ("documentation", "root doc")]
       [Elem "field" [("name", "Y"); ("documentation", "child doc"); ("units", "m")]
          [Elem "field" [("name", "Z"); ("units", "as_parent")] []]]].

(** ** The batcher *)

(** [all(key in entry_dict for key in ["path", "documentation", "ids_name"])]. *)
Definition has_required_keys (entry_dict : Dict) : bool :=
  forallb (contains entry_dict) ["path"; "documentation"; "ids_name"].

(** The loop of [_get_document_batch] over the records of the stream, with
    its buffer and its set of seen paths; the result lists the yielded
    batches, the remainder last. *)
Fixpoint batch_loop (batch_size : Z) (stream : list Dict)
    (documents_batch : list Dict) (processed_paths : gset string) : list (list Dict) :=
  match stream with
  | [] =>
      match documents_batch with
      | [] => []
      | _ :: _ => [documents_batch]
      end
  | entry_dict :: rest =>
      let path := Py.get entry_dict "path" in
      if negb (otruthy path) || bool_decide (default "" path ∈ processed_paths) then
        batch_loop batch_size rest documents_batch processed_paths
      else if has_required_keys entry_dict then
        let documents_batch' := documents_batch ++ [entry_dict] in
        let processed_paths' := {[default "" path]} ∪ processed_paths in
        if (batch_size <=? Z.of_nat (length documents_batch'))%Z then
          documents_batch' :: batch_loop batch_size rest [] processed_paths'
        else
          batch_loop batch_size rest documents_batch' processed_paths'
      else
        batch_loop batch_size rest documents_batch processed_paths
  end.

(** The batches yielded for a stream of records. *)
Definition batches (batch_size : Z) (stream : list Dict) : list (list Dict) :=
  batch_loop batch_size stream [] ∅.

Definition DEFAULT_BATCH_SIZE : Z := 500.

Definition _get_document_batch (root : Element) (ids_set : option (gset string))
    (batch_size : Z) : list (list Dict) :=
  batches batch_size (_get_document root ids_set).

(** ** The index name *)

Section IndexName.

(** [hashlib.md5(b).hexdigest()], from the Python standard library. *)
Variable md5_hexdigest : string → string.

(** [dd_version] is the text of [self.dd_version.public]. *)
Definition _get_index_name (index_prefix dd_version : string)
    (ids_set : option (gset string)) : string :=
  let indexname := index_prefix +:+ "_" +:+ dd_version in
  match ids_set with
  | Some s =>
      if 0 <? size s then
        let ids_str := join "," (sorted_str (elements s)) in
        let hash_suffix := slice_to 8 (md5_hexdigest ids_str) in
        indexname +:+ "-" +:+ hash_suffix
      else indexname
  | None => indexname
  end.

End IndexName.

(** ** The statements of the specification that the code is compared with *)

(** A record the batcher can accept: a non-empty path and the three keys. *)
Definition acceptable (entry_dict : Dict) : bool :=
  otruthy (Py.get entry_dict "path") && has_required_keys entry_dict.

Definition same_path (r1 r2 : Dict) : bool :=
  bool_decide (Py.get r1 "path" = Py.get r2 "path").

(** Deduplication by path, first occurrence wins: a record is kept when no
    acceptable record before it in the stream has its path. *)
Fixpoint dedup_first (earlier later : list Dict) : list Dict :=
  match later with
  | [] => []
  | r :: later' =>
      (if acceptable r && negb (existsb (λ r', acceptable r' && same_path r' r) earlier)
       then [r] else [])
      ++ dedup_first (earlier ++ [r]) later'
  end.

(** The chain of [n] parents of a position, the nearest first. *)
Fixpoint parents (n : nat) (l : Loc) : list Loc :=
  match n with
  | 0 => []
  | S n' => removelast l :: parents n' (removelast l)
  end.

(** A concrete unit: present, not empty and not the inheritance marker. *)
Definition is_concrete (u : option string) : bool :=
  match u with
  | Some s => truthy s && negb (String.eqb s as_parent)
  | None => false
  end.

(** The concrete unit of the nearest element of a chain that has one. *)
Fixpoint nearest_concrete (us : list (option string)) : option string :=
  match us with
  | [] => None
  | u :: us' => if is_concrete u then u else nearest_concrete us'
  end.

(** The [units] attributes along the chain of parents of the element at
    [ids_node ++ rel], up to and including the top-level structure. *)
Definition ancestor_units (root : Element) (ids_node rel : Loc) : list (option string) :=
  (λ l, ET.get root l "units") <$> parents (length rel) (ids_node ++ rel).

(** [ceil(n / b)] for a positive [b]. *)
Definition ceil_div (n b : nat) : nat := (n + b - 1) / b.

(** The number of [#] characters a block starts with. *)
Fixpoint leading_hashes (s : string) : nat :=
  match s with
  | String a s' => if Ascii.eqb a "#" then S (leading_hashes s') else 0
  | EmptyString => 0
  end.

(** [p] has the most separators among the keys [ks], and is the first such
    key in insertion order. *)
Definition deepest_first_inserted (ks : list string) (p : string) : Prop :=
  ∃ l1 l2, ks = l1 ++ p :: l2
    ∧ Forall (λ q, slashes q < slashes p) l1
    ∧ Forall (λ q, slashes q ≤ slashes p) l2.

(** [p] has the most separators among the keys [ks], and is the last such
    key in insertion order. *)
Definition deepest_last_inserted (ks : list string) (p : string) : Prop :=
  ∃ l1 l2, ks = l1 ++ p :: l2
    ∧ Forall (λ q, slashes q ≤ slashes p) l1
    ∧ Forall (λ q, slashes q < slashes p) l2.

(** The non-leaf paths of a map in the order they were inserted. *)
Definition non_leaf_in_insertion_order (documentation_parts : Dict) : list string :=
  match deepest_path documentation_parts with
  | Some leaf => filter (λ k, k ≠ leaf) (keys documentation_parts)
  | None => []
  end.

(** The deepest key of a list, the later one on a tie. *)
Fixpoint last_deepest (ks : list string) : option string :=
  match ks with
  | [] => None
  | k :: ks' =>
      match last_deepest ks' with
      | Some k' => if slashes k' <? slashes k then Some k else Some k'
      | None => Some k
      end
  end.

(** ** Inputs and auxiliary definitions of the proofs *)

(** [a <= b] on [str]: [not (b < a)]. *)
Definition str_le (a b : string) : Prop := String.ltb b a = false.

Definition depth_lt (p q : string) : bool := slashes p <? slashes q.

(** A non-empty map whose leaf is the later of two paths of equal depth. *)
Definition parts_tie : Dict := [("X/a", "doc a"); ("X/b", "doc b")].

(** The map collected for [X/Y/Z] when [X], [Y] and [Z] are all documented. *)
Definition parts_walk : Dict := [("X/Z", "z doc"); ("X/Y/Z", "y doc"); ("X", "x doc")].

(** A map whose only non-leaf fragment has no text. *)
Definition parts_silent_parent : Dict := [("X", ""); ("X/Y", "leaf doc")].

(** The records the loop appends to its buffer, given the paths seen so far. *)
Fixpoint accepted (processed_paths : gset string) (stream : list Dict) : list Dict :=
  match stream with
  | [] => []
  | entry_dict :: rest =>
      let path := Py.get entry_dict "path" in
      if negb (otruthy path) || bool_decide (default "" path ∈ processed_paths) then
        accepted processed_paths rest
      else if has_required_keys entry_dict then
        entry_dict :: accepted ({[default "" path]} ∪ processed_paths) rest
      else accepted processed_paths rest
  end.

(** The set of seen paths holds the paths of the acceptable records met so
    far. *)
Definition seen_of (seen : gset string) (earlier : list Dict) : Prop :=
  ∀ p, p ∈ seen ↔ ∃ r, r ∈ earlier ∧ acceptable r = true ∧ Py.get r "path" = Some p.

(** A stream of five records over three paths, with a record that has no
    path and one that has no documentation. *)
Definition stream_five : list Dict :=
  [[("path", "X"); ("documentation", "d1"); ("units", "none"); ("ids_name", "X")];
   [("path", "X/a"); ("documentation", "d2"); ("units", "m"); ("ids_name", "X")];
   [("documentation", "d3"); ("ids_name", "X")];
   [("path", "X/a"); ("documentation", "d4"); ("units", "s"); ("ids_name", "X")];
   [("path", "X/b"); ("units", "s"); ("ids_name", "X")];
   [("path", "X/b"); ("documentation", "d6"); ("units", "s"); ("ids_name", "X")]].

(** The fifth record of [stream_five], which has no documentation. *)
Definition record_undocumented : Dict :=
  [("path", "X/b"); ("units", "s"); ("ids_name", "X")].

(** Two names of a subset, supplied out of order. *)
Definition names_ba : list string := ["b"; "a"].

(** A function in the place of the digest, to run the index name on a
    concrete input. *)
Definition md5_stub (b : string) : string := b.

(** The units after one step, given the [units] attribute of the parent. *)
Definition inherit (units : string) (parent_units : option string) : string :=
  if String.eqb units as_parent then
    match parent_units with
    | Some pu => if truthy pu then pu else units
    | None => units
    end
  else units.

(** The units after the steps along a chain of parents. *)
Fixpoint inherit_along (units : string) (chain : list (option string)) : string :=
  match chain with
  | [] => units
  | pu :: chain' => inherit_along (inherit units pu) chain'
  end.

(** The record of a top-level structure. *)
Definition ids_record (root : Element) (ids_node : Loc) (ids_name : string) : Dict :=
  [("path", ids_name);
   ("documentation", ET.get_default root ids_node "documentation" "");
   ("units", ET.get_default root ids_node "units" "none");
   ("ids_name", ids_name)].

(** The third record of the end-to-end scenario, as the code yields it. *)
Definition record_XYZ : Dict :=
  [("path", "X/Y/Z");
   ("documentation",
     "**X/Y/Z**" +:+ nl +:+ "child doc" +:+ nl +:+ nl +:+ "## Hierarchical Context"
     +:+ nl +:+ nl +:+ "### X" +:+ nl +:+ "root doc");
   ("units", "m");
   ("ids_name", "X")].

(** The [units] field of a descendant record, from the element's own
    attribute and the attributes along its chain of parents. *)
Definition entry_units (own : option string) (chain : list (option string)) : string :=
  let u := inherit_along (default "" own) chain in
  if truthy u then u else "none".

(** A structure without units whose only field carries the marker. *)
Definition schema_unresolved : Element :=
  Elem "IDSs" []
    [Elem "IDS" [("name", "X")]
       [Elem "field" [("name", "Z"); ("units", "as_parent")] []]].

(** A structure that carries the marker itself. *)
Definition schema_root_marker : Element :=
  Elem "IDSs" [] [Elem "IDS" [("name", "X"); ("units", "as_parent")] []].

(** The name of the element at a position, when it has a non-empty one. *)
Definition name_at (root : Element) (l : Loc) : option string :=
  match ET.get root l "name" with
  | Some name => if truthy name then Some name else None
  | None => None
  end.

(** The non-empty names met from the element [n] levels above a position
    down to that position, the topmost first. *)
Fixpoint names_down_to (root : Element) (n : nat) (l : Loc) : list string :=
  match n with
  | 0 => []
  | S n' => names_down_to root n' (removelast l) ++ option_list (name_at root l)
  end.

(** The non-empty path of a record, if it has one. *)
Definition path_of (r : Dict) : option string :=
  match Py.get r "path" with
  | Some p => if truthy p then Some p else None
  | None => None
  end.

(** A path has a fragment with text in a map. *)
Definition has_text (documentation_parts : Dict) (path_key : string) : Prop :=
  truthy (Py.get_default documentation_parts path_key "") = true.

(** A schema with a field whose name is empty under a named field. *)
Definition schema_unnamed : Element :=
  Elem "IDSs" []
    [Elem "IDS" [("name", "X")]
       [Elem "group" [("name", "")]
          [Elem "field" [("name", "Z"); ("documentation", "z doc")] []]]].

(** [record["ids_name"] in s]. *)
Definition ids_name_in (s : gset string) (record : Dict) : bool :=
  match Py.get record "ids_name" with
  | Some n => bool_decide (n ∈ s)
  | None => false
  end.

(** The map [_build_element_entry] hands to the composer: what the walk
    collected, with the documentation of the structure added under its name
    when it has some (lines 283 to 291). *)
Definition collected_parts (root : Element) (elem ids_node : Loc) (ids_name : string)
    (parent_map : gmap Loc Loc) : Dict :=
  let st := walk_loop (walk_fuel elem) root parent_map ids_node ids_name
              (MkWalk (Some elem) [] [] (ET.get_default root elem "units" "")) in
  let ids_doc := ET.get root ids_node "documentation" in
  if otruthy ids_doc
  then Py.set (documentation_parts st) ids_name (default "" ids_doc)
  else documentation_parts st.

(** * Properties *)

(** ** Strings *)

Lemma flat_map_step {A B : Type} (f : A → list B) (x : A) (l : list A) :
  flat_map f (x :: l) = f x ++ flat_map f l.
Proof. reflexivity. Qed.

Lemma truthy_nonempty (s : string) : truthy s = true ↔ s ≠ "".
Proof. destruct s; simpl; split; congruence. Qed.

Lemma truthy_false (s : string) : truthy s = false ↔ s = "".
Proof. destruct s; simpl; split; congruence. Qed.

Lemma append_cons (x : ascii) (a b : string) : String x a +:+ b = String x (a +:+ b).
Proof. reflexivity. Qed.

Lemma append_nil_l (b : string) : "" +:+ b = b.
Proof. reflexivity. Qed.

Lemma append_assoc (a b c : string) : (a +:+ b) +:+ c = a +:+ (b +:+ c).
Proof.
  induction a as [|x a IH]; [done|]. by rewrite !append_cons, IH.
Qed.

Lemma leading_hashes_repeat (n : nat) (rest : string) :
  leading_hashes (Py.repeat "#" n +:+ " " +:+ rest) = n.
Proof.
  induction n as [|n IH]; [done|].
  change (leading_hashes (String "#" (Py.repeat "#" n +:+ " " +:+ rest)) = S n).
  simpl. by rewrite IH.
Qed.

Lemma str_le_iff (a b : string) : str_le a b ↔ String.le a b.
Proof.
  unfold str_le, String.le, String.ltb, String.leb.
  rewrite (String.compare_antisym a b).
  destruct (String.compare b a); simpl; split; done.
Qed.

#[local] Instance str_le_trans : Transitive str_le.
Proof. intros a b c. rewrite !str_le_iff. apply transitivity. Qed.

#[local] Instance str_le_antisym : AntiSymm (=) str_le.
Proof. intros a b. rewrite !str_le_iff. apply (anti_symm String.le). Qed.

Lemma str_le_total (a b : string) : str_le a b ∨ str_le b a.
Proof. rewrite !str_le_iff. apply (total String.le). Qed.

(** ** Sorting *)

Section SortedFacts.
Context {A : Type} (lt : A → A → bool).

Hypothesis le_total : ∀ x y, sort_le lt x y ∨ sort_le lt y x.
Hypothesis le_trans : Transitive (sort_le lt).

Lemma insert_sorted_perm (x : A) (l : list A) : insert_sorted lt x l ≡ₚ x :: l.
Proof.
  induction l as [|y l IH]; simpl; [done|].
  destruct (lt y x); [|done]. rewrite IH. apply Permutation_swap.
Qed.

Lemma sorted_perm (l : list A) : sorted lt l ≡ₚ l.
Proof.
  induction l as [|x l IH]; simpl; [done|].
  by rewrite insert_sorted_perm, IH.
Qed.

Lemma insert_sorted_strongly (x : A) (l : list A) :
  StronglySorted (sort_le lt) l → StronglySorted (sort_le lt) (insert_sorted lt x l).
Proof.
  induction 1 as [|y l Hl IH Hy]; simpl.
  - repeat constructor.
  - destruct (lt y x) eqn:Hyx.
    + constructor; [done|]. rewrite insert_sorted_perm. constructor; [|done].
      destruct (le_total y x) as [H|H]; [done|]. unfold sort_le in H. congruence.
    + constructor; [by constructor|]. constructor; [done|].
      eapply Forall_impl; [exact Hy|]. intros z Hz. by trans y.
Qed.

Lemma sorted_strongly (l : list A) : StronglySorted (sort_le lt) (sorted lt l).
Proof.
  induction l as [|x l IH]; simpl; [constructor|by apply insert_sorted_strongly].
Qed.

(** Stability: the elements selected by a predicate that the order cannot
    tell apart keep their relative order. *)
Lemma insert_sorted_filter (P : A → Prop) `{∀ y, Decision (P y)} (x : A) (l : list A) :
  P x → (∀ y, P y → lt y x = false) →
  filter P (insert_sorted lt x l) = x :: filter P l.
Proof.
  intros HPx Hlt. induction l as [|y l IH]; simpl.
  - by rewrite filter_cons_True.
  - destruct (lt y x) eqn:Hyx.
    + rewrite !(filter_cons_False _ y); [done| |].
      all: intros HPy; apply Hlt in HPy; congruence.
    + by rewrite (filter_cons_True _ x).
Qed.

Lemma insert_sorted_filter_out (P : A → Prop) `{∀ y, Decision (P y)} (x : A) (l : list A) :
  ¬ P x → filter P (insert_sorted lt x l) = filter P l.
Proof.
  intros HPx. induction l as [|y l IH]; simpl.
  - by rewrite filter_cons_False.
  - destruct (lt y x) eqn:Hyx.
    + destruct (decide (P y)).
      * by rewrite !(filter_cons_True _ y), IH.
      * by rewrite !(filter_cons_False _ y).
    + by rewrite (filter_cons_False _ x).
Qed.

(** [l[-1]] after an insertion. *)
Lemma last_insert_sorted (x : A) (l : list A) :
  StronglySorted (sort_le lt) l →
  last (insert_sorted lt x l) =
    match last l with
    | Some m => if lt m x then Some x else Some m
    | None => Some x
    end.
Proof.
  induction 1 as [|y l Hl IH Hy]; simpl; [done|].
  destruct (lt y x) eqn:Hyx.
  - rewrite !last_cons, IH. destruct (last l) as [m|] eqn:Hm; simpl.
    + by destruct (lt m x).
    + by rewrite Hyx.
  - rewrite !last_cons. destruct (last l) as [m|] eqn:Hm; simpl.
    + assert (lt m x = false) as ->; [|done].
      apply last_Some_elem_of in Hm. rewrite Forall_forall in Hy.
      specialize (Hy m Hm). change (sort_le lt x m). by trans y.
    + by rewrite Hyx.
Qed.
End SortedFacts.

(** ** The composer *)

(** The composer on the input of its docstring: the two paths of depth two
    both get a level-4 header, in the order they were inserted. *)
Example compose_docstring_input :
  _build_hierarchical_documentation
    [("core_profiles", "Core plasma profiles data");
     ("core_profiles/time", "Time coordinate array");
     ("core_profiles/profiles_1d", "1D profile data");
     ("core_profiles/profiles_1d/temperature", "Temperature profile")]
  = "**core_profiles/profiles_1d/temperature**" +:+ nl +:+ "Temperature profile"
    +:+ nl +:+ nl +:+ "## Hierarchical Context"
    +:+ nl +:+ nl +:+ "### core_profiles" +:+ nl +:+ "Core plasma profiles data"
    +:+ nl +:+ nl +:+ "#### core_profiles/time" +:+ nl +:+ "Time coordinate array"
    +:+ nl +:+ nl +:+ "#### core_profiles/profiles_1d" +:+ nl +:+ "1D profile data".
Proof. vm_compute. reflexivity. Qed.

Lemma depth_le_iff (p q : string) : sort_le depth_lt p q ↔ slashes p ≤ slashes q.
Proof. unfold sort_le, depth_lt. rewrite Nat.ltb_ge. done. Qed.

Lemma depth_le_total (p q : string) : sort_le depth_lt p q ∨ sort_le depth_lt q p.
Proof. rewrite !depth_le_iff. lia. Qed.

#[local] Instance depth_le_trans : Transitive (sort_le depth_lt).
Proof. intros p q r. rewrite !depth_le_iff. lia. Qed.

Lemma StronglySorted_weaken {A : Type} (R S : A → A → Prop) (l : list A) :
  (∀ x y, R x y → S x y) → StronglySorted R l → StronglySorted S l.
Proof.
  intros HRS. induction 1 as [|x l Hl IH Hx]; constructor; [done|].
  eapply Forall_impl; [exact Hx|]. auto.
Qed.

Lemma paths_by_depth_perm (d : Dict) : paths_by_depth d ≡ₚ keys d.
Proof. apply sorted_perm. Qed.

Lemma paths_by_depth_sorted (d : Dict) :
  StronglySorted (λ p q, slashes p ≤ slashes q) (paths_by_depth d).
Proof.
  eapply StronglySorted_weaken;
    [|exact (sorted_strongly depth_lt depth_le_total depth_le_trans (keys d))].
  intros p q. by rewrite depth_le_iff.
Qed.

Lemma paths_by_depth_stable (d : Dict) (k : nat) :
  filter (λ p, slashes p = k) (paths_by_depth d) = filter (λ p, slashes p = k) (keys d).
Proof.
  unfold paths_by_depth, sorted_by_key. induction (keys d) as [|x l IH]; [done|].
  simpl. destruct (decide (slashes x = k)) as [Hx|Hx].
  - rewrite (insert_sorted_filter _ (λ p, slashes p = k)), filter_cons_True, IH; try done.
    intros y Hy. apply Nat.ltb_ge. lia.
  - by rewrite (insert_sorted_filter_out _ (λ p, slashes p = k)), filter_cons_False, IH.
Qed.

Lemma deepest_path_last_deepest (d : Dict) : deepest_path d = last_deepest (keys d).
Proof.
  unfold deepest_path, paths_by_depth, sorted_by_key, last_item.
  induction (keys d) as [|x l IH]; [done|]. simpl.
  rewrite (last_insert_sorted depth_lt depth_le_trans).
  - by rewrite IH.
  - apply sorted_strongly; [apply depth_le_total|apply _].
Qed.

Lemma last_deepest_spec (ks : list string) (p : string) :
  last_deepest ks = Some p → deepest_last_inserted ks p.
Proof.
  revert p. induction ks as [|k ks IH]; intros p; simpl; [done|].
  destruct (last_deepest ks) as [k'|] eqn:Hk'.
  - destruct (IH k' eq_refl) as (l1 & l2 & -> & Hl1 & Hl2).
    destruct (slashes k' <? slashes k) eqn:Hlt; intros [= <-].
    + apply Nat.ltb_lt in Hlt. exists [], (l1 ++ k' :: l2). split_and!; [done..|].
      rewrite Forall_app, Forall_cons. split_and!; [|done|].
      all: eapply Forall_impl; [eassumption|]; simpl; intros; lia.
    + apply Nat.ltb_ge in Hlt. exists (k :: l1), l2. split_and!; [done| |done].
      by constructor.
  - intros [= <-]. destruct ks as [|k0 ks].
    + by exists [], [].
    + simpl in Hk'. destruct (last_deepest ks); [destruct (_ <? _)|]; done.
Qed.

Lemma deepest_path_spec (d : Dict) (p : string) :
  deepest_path d = Some p → deepest_last_inserted (keys d) p.
Proof. rewrite deepest_path_last_deepest. apply last_deepest_spec. Qed.

Lemma deepest_path_is_Some (d : Dict) : d ≠ [] → is_Some (deepest_path d).
Proof.
  rewrite deepest_path_last_deepest. destruct d as [|[k v] d]; [done|]. intros _.
  simpl. destruct (last_deepest (keys d)); [|by eexists].
  destruct (_ <? _); by eexists.
Qed.

Lemma remaining_paths_nil (d : Dict) : remaining_paths d = [] ↔ length d ≤ 1.
Proof.
  unfold remaining_paths, but_last.
  assert (length (paths_by_depth d) = length d) as <-.
  { rewrite paths_by_depth_perm. unfold keys. apply length_map. }
  destruct (paths_by_depth d) as [|x [|y l]]; simpl; split; try done; lia.
Qed.

Lemma paths_by_depth_split (d : Dict) :
  paths_by_depth d = remaining_paths d ++ option_list (deepest_path d).
Proof.
  unfold remaining_paths, deepest_path, but_last, last_item.
  induction (paths_by_depth d) as [|x l IH] using rev_ind; [done|].
  by rewrite last_snoc, removelast_last.
Qed.

Lemma repeat_two_spaces (n : nat) : Py.repeat "  " n = Py.repeat " " (2 * n).
Proof.
  induction n as [|n IH]; [done|].
  replace (2 * S n) with (S (S (2 * n))) by lia. simpl. by rewrite IH.
Qed.

Lemma context_block_level (p doc : string) :
  leading_hashes (context_block p doc) = (slashes p + 1 + 2) `min` 6.
Proof.
  unfold context_block. destruct (_ <=? 6) eqn:Hle.
  - apply Nat.leb_le in Hle. rewrite leading_hashes_repeat. lia.
  - apply Nat.leb_gt in Hle.
    change "###### " with (Py.repeat "#" 6 +:+ " "). rewrite append_assoc.
    rewrite leading_hashes_repeat. lia.
Qed.

Lemma context_blocks_elem (parts : Dict) (ps : list string) (block : string) :
  block ∈ context_blocks parts ps ↔
  ∃ p doc, p ∈ ps ∧ Py.get parts p = Some doc ∧ doc ≠ "" ∧ block = context_block p doc.
Proof.
  unfold context_blocks. rewrite list_elem_of_In, in_flat_map. split.
  - intros (p & Hp & Hb). apply list_elem_of_In in Hp.
    unfold Py.get_default in Hb. cbv zeta in Hb.
    destruct (Py.get parts p) as [doc|] eqn:Hget; [|by simpl in Hb].
    destruct (truthy doc) eqn:Hdoc; [|by simpl in Hb].
    destruct Hb as [<-|[]]. exists p, doc. by rewrite <- truthy_nonempty.
  - intros (p & doc & Hp & Hget & Hdoc & ->). exists p.
    split; [by apply list_elem_of_In|]. unfold Py.get_default. cbv zeta. rewrite Hget.
    apply truthy_nonempty in Hdoc as ->. by left.
Qed.

Lemma leaf_block_not_header (p doc : string) : leaf_block p doc ≠ context_header.
Proof. intros H. apply (f_equal leading_hashes) in H. discriminate H. Qed.

Lemma context_block_not_header (p doc : string) : context_block p doc ≠ context_header.
Proof.
  intros H. apply (f_equal leading_hashes) in H.
  rewrite context_block_level in H. change (leading_hashes context_header) with 2 in H. lia.
Qed.

Lemma context_header_elem (parts : Dict) :
  context_header ∈ doc_sections parts ↔ remaining_paths parts ≠ [].
Proof.
  unfold doc_sections. destruct (deepest_path parts) as [leaf|] eqn:Hleaf.
  - set (lead := if truthy _ then _ else _).
    assert (context_header ∉ lead) as Hlead.
    { unfold lead. destruct (truthy _); [|by apply not_elem_of_nil].
      intros H%list_elem_of_singleton. symmetry in H. by eapply leaf_block_not_header. }
    rewrite elem_of_app. destruct (remaining_paths parts) eqn:E.
    + split; [intros [?|?%elem_of_nil]|]; done.
    + split; [done|]. intros _. right. left.
  - split; [by intros ?%elem_of_nil|]. intros H. exfalso. apply H.
    pose proof (paths_by_depth_split parts) as Hs. rewrite Hleaf in Hs. simpl in Hs.
    rewrite app_nil_r in Hs. unfold deepest_path, last_item in Hleaf.
    rewrite Hs in Hleaf. apply last_None in Hleaf. done.
Qed.

Lemma join_cons_prefix (sep x : string) (l : list string) :
  ∃ rest, join sep (x :: l) = x +:+ rest.
Proof.
  destruct l as [|y l].
  - exists "". simpl. induction x as [|c x IH]; [done|]. by rewrite append_cons, <- IH.
  - by exists (sep +:+ join sep (y :: l)).
Qed.

(** C4, as stated: on a tie at the maximum depth the path inserted first is
    the leaf.  It fails on a map of two paths of depth one, where the leaf is
    the second path. *)
Lemma leaf_tie_first_inserted_fails :
  ¬ ∃ p, deepest_path parts_tie = Some p ∧ deepest_first_inserted (keys parts_tie) p.
Proof.
  intros (p & Hp & l1 & l2 & Hks & Hl1 & _).
  vm_compute in Hp. injection Hp as <-.
  destruct l1 as [|a [|b l1]]; simplify_eq/=.
  - apply Forall_cons in Hl1 as [Hl1 _]. vm_compute in Hl1. lia.
  - by destruct l1.
Qed.

(** C4, amended: for every non-empty fragment map the leaf is a path with the
    maximum count of [/] separators, and when several paths tie at that
    depth, the one inserted last among them is the leaf. *)
Theorem leaf_is_deepest_last_inserted (parts : Dict) :
  parts ≠ [] →
  ∃ p, deepest_path parts = Some p ∧ deepest_last_inserted (keys parts) p.
Proof.
  intros [p Hp]%deepest_path_is_Some. exists p. split; [done|].
  by apply deepest_path_spec.
Qed.

Lemma leaf_is_deepest_last_inserted_witness :
  parts_tie ≠ [] ∧
  ∃ p, deepest_path parts_tie = Some p ∧ deepest_last_inserted (keys parts_tie) p.
Proof. split; [done|]. apply (leaf_is_deepest_last_inserted parts_tie). done. Defined.

#[local] Instance has_text_dec (parts : Dict) (p : string) : Decision (has_text parts p).
Proof. unfold has_text. apply _. Defined.


Lemma context_blocks_map (parts : Dict) (ps : list string) :
  context_blocks parts ps
  = (λ p, context_block p (Py.get_default parts p "")) <$> filter (has_text parts) ps.
Proof.
  unfold context_blocks. induction ps as [|p ps IH]; [done|].
  rewrite flat_map_step, IH. cbv zeta.
  destruct (truthy (Py.get_default parts p "")) eqn:Ht.
  - by rewrite filter_cons_True.
  - rewrite filter_cons_False; [done|]. unfold has_text. by rewrite Ht.
Qed.

(** The sections of the composer, block by block. *)
Lemma doc_sections_explicit (parts : Dict) :
  doc_sections parts
  = ((λ p, leaf_block p (Py.get_default parts p ""))
       <$> filter (has_text parts) (option_list (deepest_path parts)))
    ++ match remaining_paths parts with
       | [] => []
       | _ :: _ =>
           context_header
           :: ((λ p, context_block p (Py.get_default parts p ""))
                 <$> filter (has_text parts) (remaining_paths parts))
       end.
Proof.
  unfold doc_sections. destruct (deepest_path parts) as [leaf|] eqn:Hleaf.
  - rewrite context_blocks_map. f_equal. simpl option_list.
    destruct (truthy (Py.get_default parts leaf "")) eqn:Ht.
    + by rewrite filter_cons_True.
    + rewrite filter_cons_False; [done|]. unfold has_text. by rewrite Ht.
  - pose proof (paths_by_depth_split parts) as Hs.
    rewrite Hleaf, app_nil_r in Hs. unfold deepest_path, last_item in Hleaf.
    apply last_None in Hleaf. by rewrite <- Hs, Hleaf.
Qed.

(** C5, as stated: the context blocks follow the insertion order of the
    non-leaf paths.  It fails on the map collected for a documented element
    two levels below a documented structure: the block of [X] comes first,
    although [X] was inserted last. *)
Lemma context_insertion_order_fails :
  context_blocks parts_walk (remaining_paths parts_walk)
  ≠ context_blocks parts_walk (non_leaf_in_insertion_order parts_walk).
Proof. vm_compute. discriminate. Qed.

(** C5, amended: the context blocks are, in this order, the blocks of the
    paths with a non-empty text among the paths of the map sorted by
    ascending count of [/] separators with the last sorted path, the leaf,
    removed; paths of equal depth keep their insertion order. *)
Theorem context_blocks_in_depth_order (parts : Dict) :
  let ctx := remaining_paths parts in
  let leaf := option_list (deepest_path parts) in
  let text (p : string) := Py.get_default parts p "" in
  doc_sections parts
    = ((λ p, leaf_block p (text p)) <$> filter (has_text parts) leaf)
      ++ match ctx with
         | [] => []
         | _ :: _ =>
             context_header
             :: ((λ p, context_block p (text p)) <$> filter (has_text parts) ctx)
         end
  ∧ ctx ++ leaf ≡ₚ keys parts
  ∧ StronglySorted (λ p q, slashes p ≤ slashes q) (ctx ++ leaf)
  ∧ ∀ k, filter (λ p, slashes p = k) (ctx ++ leaf)
         = filter (λ p, slashes p = k) (keys parts).
Proof.
  intros ctx leaf text. split; [apply doc_sections_explicit|].
  unfold ctx, leaf. rewrite <- paths_by_depth_split. split_and!.
  - apply paths_by_depth_perm.
  - apply paths_by_depth_sorted.
  - apply paths_by_depth_stable.
Qed.

(** C6: every context block is headed by [min(6, depth + 2)] number signs,
    where [depth] is the count of [/] in its path plus one; up to level 6
    the header carries the path, beyond it the header is [######] followed
    by two spaces per excess level and the path in bold. *)
Theorem context_block_header_level (parts : Dict) (block : string) :
  block ∈ context_blocks parts (remaining_paths parts) →
  ∃ p doc, p ∈ remaining_paths parts ∧ Py.get parts p = Some doc ∧ doc ≠ "" ∧
    let depth := slashes p + 1 in
    let level := (depth + 2) `min` 6 in
    leading_hashes block = level ∧ level ≤ 6 ∧
    block =
      if decide (depth + 2 ≤ 6)
      then Py.repeat "#" level +:+ " " +:+ p +:+ nl +:+ doc
      else
        let indent := Py.repeat " " (2 * (depth + 2 - 6)) in
        Py.repeat "#" 6 +:+ " " +:+ indent +:+ "**" +:+ p +:+ "**" +:+ nl +:+ indent +:+ doc.
Proof.
  intros (p & doc & Hp & Hget & Hdoc & ->)%context_blocks_elem.
  exists p, doc. split_and!; [done..|]. cbv zeta. split_and!.
  - apply context_block_level.
  - lia.
  - unfold context_block. rewrite repeat_two_spaces. case_decide as Hle.
    + apply Nat.leb_le in Hle as Hle'. rewrite Hle'. by rewrite Nat.min_l.
    + apply Nat.leb_nle in Hle as ->. done.
Qed.

Lemma context_block_header_level_witness :
  context_block "X" "x doc" ∈ context_blocks parts_walk (remaining_paths parts_walk) ∧
  ∃ p doc, p ∈ remaining_paths parts_walk ∧ Py.get parts_walk p = Some doc ∧ doc ≠ "" ∧
    let depth := slashes p + 1 in
    let level := (depth + 2) `min` 6 in
    leading_hashes (context_block "X" "x doc") = level ∧ level ≤ 6 ∧
    context_block "X" "x doc" =
      if decide (depth + 2 ≤ 6)
      then Py.repeat "#" level +:+ " " +:+ p +:+ nl +:+ doc
      else
        let indent := Py.repeat " " (2 * (depth + 2 - 6)) in
        Py.repeat "#" 6 +:+ " " +:+ indent +:+ "**" +:+ p +:+ "**" +:+ nl +:+ indent +:+ doc.
Proof.
  assert (context_block "X" "x doc" ∈ context_blocks parts_walk (remaining_paths parts_walk))
    as H by (vm_compute; constructor).
  split; [exact H|].
  exact (context_block_header_level parts_walk (context_block "X" "x doc") H).
Defined.

(** C7, as stated: the output has a [## Hierarchical Context] section if and
    only if some non-leaf fragment has non-empty text.  It fails on a map
    whose only non-leaf fragment is empty: the section header is emitted all
    the same. *)
Lemma context_header_iff_text_fails :
  ¬ (context_header ∈ doc_sections parts_silent_parent ↔
     ∃ p doc, (p, doc) ∈ parts_silent_parent
       ∧ deepest_path parts_silent_parent ≠ Some p ∧ doc ≠ "").
Proof.
  intros [H _]. destruct H as (p & doc & Hin & Hleaf & Hdoc).
  { apply context_header_elem. vm_compute. discriminate. }
  apply list_elem_of_In in Hin. simpl in Hin.
  destruct Hin as [[= <- <-]|[[= <- <-]|[]]]; [done|].
  vm_compute in Hleaf. done.
Qed.

(** C7, amended: the composer returns the empty string for an empty map; for
    a non-empty map the leaf is a path of maximum depth, the output begins
    with the bolded leaf path and the leaf's text when that text is not
    empty, and it has a [## Hierarchical Context] section if and only if the
    map has a non-leaf fragment, whatever its text. *)
Theorem compose_leaf_first_and_context (parts : Dict) :
  _build_hierarchical_documentation [] = "" ∧
  (parts ≠ [] →
   ∃ leaf, deepest_path parts = Some leaf
     ∧ Forall (λ q, slashes q ≤ slashes leaf) (keys parts)
     ∧ (∀ doc, Py.get parts leaf = Some doc → doc ≠ "" →
        ∃ rest, _build_hierarchical_documentation parts
                = "**" +:+ leaf +:+ "**" +:+ nl +:+ doc +:+ rest)
     ∧ (context_header ∈ doc_sections parts ↔ 2 ≤ length parts)).
Proof.
  split; [done|]. intros Hne.
  destruct (deepest_path_is_Some parts Hne) as [leaf Hleaf].
  pose proof (deepest_path_spec parts leaf Hleaf) as Hdeep.
  exists leaf. split_and!; [done| | |].
  - destruct Hdeep as (l1 & l2 & -> & Hl1 & Hl2).
    rewrite Forall_app, Forall_cons. split_and!; [done|lia|].
    eapply Forall_impl; [exact Hl2|]. simpl. intros. lia.
  - intros doc Hget Hdoc. destruct parts as [|kv parts]; [done|].
    unfold _build_hierarchical_documentation, doc_sections.
    rewrite Hleaf. unfold Py.get_default. rewrite Hget.
    apply truthy_nonempty in Hdoc as ->. simpl app.
    destruct (join_cons_prefix (nl +:+ nl) (leaf_block leaf doc)
      match remaining_paths (kv :: parts) with
      | [] => []
      | _ :: _ => context_header
                  :: context_blocks (kv :: parts) (remaining_paths (kv :: parts))
      end) as [rest Hrest].
    exists rest. rewrite Hrest. unfold leaf_block. by rewrite !append_assoc.
  - rewrite context_header_elem, remaining_paths_nil. lia.
Qed.

Lemma compose_leaf_first_and_context_witness :
  parts_walk ≠ [] ∧
  ∃ leaf, deepest_path parts_walk = Some leaf
    ∧ Forall (λ q, slashes q ≤ slashes leaf) (keys parts_walk)
    ∧ (∀ doc, Py.get parts_walk leaf = Some doc → doc ≠ "" →
       ∃ rest, _build_hierarchical_documentation parts_walk
               = "**" +:+ leaf +:+ "**" +:+ nl +:+ doc +:+ rest)
    ∧ (context_header ∈ doc_sections parts_walk ↔ 2 ≤ length parts_walk).
Proof.
  split; [done|].
  exact (proj2 (compose_leaf_first_and_context parts_walk) ltac:(done)).
Defined.

(** ** The index name *)

Lemma sorted_str_strongly (names : list string) : StronglySorted str_le (sorted_str names).
Proof. exact (sorted_strongly String.ltb str_le_total str_le_trans names). Qed.

Lemma sorted_str_perm (names : list string) : sorted_str names ≡ₚ names.
Proof. apply sorted_perm. Qed.

Lemma sorted_str_order_independent (names names' : list string) :
  names ≡ₚ names' → sorted_str names = sorted_str names'.
Proof.
  intros Hp. apply (StronglySorted_unique str_le); [apply sorted_str_strongly..|].
  by rewrite !sorted_str_perm.
Qed.

Section IndexNameFacts.
Variable md5_hexdigest : string → string.
Variables index_prefix dd_version : string.

Lemma index_name_of_list (names : list string) :
  names ≠ [] → NoDup names →
  _get_index_name md5_hexdigest index_prefix dd_version (Some (list_to_set names))
  = index_prefix +:+ "_" +:+ dd_version +:+ "-"
    +:+ slice_to 8 (md5_hexdigest (join "," (sorted_str names))).
Proof.
  intros Hne Hnd. unfold _get_index_name.
  assert ((0 <? size (list_to_set names : gset string)) = true) as ->.
  { apply Nat.ltb_lt. rewrite size_list_to_set by done. destruct names; simpl; [done|lia]. }
  rewrite (sorted_str_order_independent _ names); [|by apply elements_list_to_set].
  by rewrite !append_assoc.
Qed.
End IndexNameFacts.

(** C3: the index name of a non-empty subset, supplied as the list [names]
    of its elements in any order, is the prefix, [_], the version, [-] and
    the first 8 characters of the MD5 hex digest of the comma-joined sorted
    names; any other order of the same names gives the same name; without a
    subset, or with an empty one, the name has no hash suffix; and for the
    subset [{"X"}] of version 3.40.0 under the prefix [semantic] the name is
    [semantic_3.40.0-] followed by the first 8 hex characters of MD5("X"). *)
Theorem index_name_deterministic (md5_hexdigest : string → string)
    (index_prefix dd_version : string) (names : list string) :
  names ≠ [] → NoDup names →
  let name_of (l : list string) :=
    _get_index_name md5_hexdigest index_prefix dd_version (Some (list_to_set l)) in
  name_of names
    = index_prefix +:+ "_" +:+ dd_version +:+ "-"
      +:+ slice_to 8 (md5_hexdigest (join "," (sorted_str names)))
  ∧ StronglySorted str_le (sorted_str names)
  ∧ sorted_str names ≡ₚ names
  ∧ (∀ names', names' ≡ₚ names →
       sorted_str names' = sorted_str names ∧ name_of names' = name_of names)
  ∧ _get_index_name md5_hexdigest index_prefix dd_version None
    = index_prefix +:+ "_" +:+ dd_version
  ∧ _get_index_name md5_hexdigest index_prefix dd_version (Some ∅)
    = index_prefix +:+ "_" +:+ dd_version
  ∧ _get_index_name md5_hexdigest "semantic" "3.40.0" (Some {["X"]})
    = "semantic_3.40.0-" +:+ slice_to 8 (md5_hexdigest "X").
Proof.
  intros Hne Hnd name_of. split_and!.
  - by apply index_name_of_list.
  - apply sorted_str_strongly.
  - apply sorted_str_perm.
  - intros names' Hp. split; [by apply sorted_str_order_independent|].
    unfold name_of. by rewrite (list_to_set_perm_L names' names).
  - done.
  - done.
  - pose proof (index_name_of_list md5_hexdigest "semantic" "3.40.0" ["X"]
                  ltac:(done) (NoDup_singleton _)) as H.
    simpl in H. rewrite (right_id_L ∅ (∪)) in H. exact H.
Qed.

Lemma index_name_deterministic_witness :
  names_ba ≠ [] ∧ NoDup names_ba ∧
  _get_index_name md5_stub "semantic" "3.40.0" (Some (list_to_set names_ba))
  = "semantic" +:+ "_" +:+ "3.40.0" +:+ "-"
    +:+ slice_to 8 (md5_stub (join "," (sorted_str names_ba))).
Proof.
  assert (names_ba ≠ []) as Hne by done.
  assert (NoDup names_ba) as Hnd.
  { apply NoDup_cons. split; [|apply NoDup_singleton].
    intros Hin%list_elem_of_singleton. discriminate Hin. }
  split_and!; [done..|].
  exact (proj1 (index_name_deterministic md5_stub "semantic" "3.40.0" names_ba Hne Hnd)).
Defined.

(** ** The batcher *)

Lemma batch_loop_concat (batch_size : Z) (stream buf : list Dict) (seen : gset string) :
  concat (batch_loop batch_size stream buf seen) = buf ++ accepted seen stream.
Proof.
  revert buf seen. induction stream as [|r rest IH]; intros buf seen; simpl.
  - destruct buf; simpl; by rewrite ?app_nil_r.
  - destruct (_ || _); [apply IH|].
    destruct (has_required_keys r); [|apply IH].
    destruct (_ <=? _)%Z; simpl; rewrite IH; simpl; by rewrite <- app_assoc.
Qed.

Lemma batch_loop_shape (B : nat) (stream buf : list Dict) (seen : gset string) :
  length buf < B →
  ∃ full rem,
    batch_loop (Z.of_nat B) stream buf seen
    = full ++ match rem with [] => [] | _ :: _ => [rem] end
    ∧ Forall (λ b, length b = B) full ∧ length rem < B.
Proof.
  revert buf seen. induction stream as [|r rest IH]; intros buf seen Hbuf; simpl.
  - exists [], buf. by destruct buf.
  - destruct (_ || _); [by apply IH|].
    destruct (has_required_keys r); [|by apply IH].
    destruct (_ <=? _)%Z eqn:Hfull.
    + apply Z.leb_le in Hfull. rewrite length_app in Hfull. simpl in Hfull.
      destruct (IH [] ({[default "" (Py.get r "path")]} ∪ seen)) as (full & rem & -> & Hf & Hr);
        [simpl; lia|].
      exists ((buf ++ [r]) :: full), rem. split_and!; [done| |done].
      constructor; [|done]. rewrite length_app. simpl. lia.
    + apply Z.leb_gt in Hfull. rewrite length_app in Hfull. simpl in Hfull.
      apply IH. rewrite length_app. simpl. lia.
Qed.

Lemma concat_full_length (B : nat) (full : list (list Dict)) :
  Forall (λ b, length b = B) full → length (concat full) = B * length full.
Proof.
  induction 1 as [|b full Hb _ IH]; simpl; [lia|]. rewrite length_app, IH, Hb. lia.
Qed.

Lemma seen_of_skip (seen : gset string) (earlier : list Dict) (r : Dict) :
  seen_of seen earlier →
  (acceptable r = true → ∃ p, Py.get r "path" = Some p ∧ p ∈ seen) →
  seen_of seen (earlier ++ [r]).
Proof.
  intros Hs Hr p. rewrite (Hs p). split.
  - intros (r' & Hin & Hacc & Hp). exists r'. rewrite elem_of_app. auto.
  - intros (r' & [Hin| ->%list_elem_of_singleton]%elem_of_app & Hacc & Hp); [by eauto|].
    destruct (Hr Hacc) as (p' & Hp' & Hseen). apply Hs. congruence.
Qed.

Lemma seen_of_add (seen : gset string) (earlier : list Dict) (r : Dict) (p : string) :
  seen_of seen earlier → acceptable r = true → Py.get r "path" = Some p →
  seen_of ({[p]} ∪ seen) (earlier ++ [r]).
Proof.
  intros Hs Hacc Hp q. rewrite elem_of_union, elem_of_singleton, (Hs q). split.
  - intros [->|(r' & Hin & Hacc' & Hq)].
    + exists r. split_and!; [|done..]. apply elem_of_app. right. by apply list_elem_of_singleton.
    + exists r'. rewrite elem_of_app. auto.
  - intros (r' & [Hin| ->%list_elem_of_singleton]%elem_of_app & Hacc' & Hq); [by eauto|].
    left. congruence.
Qed.

Lemma seen_before (seen : gset string) (earlier : list Dict) (r : Dict) (p : string) :
  seen_of seen earlier → Py.get r "path" = Some p →
  existsb (λ r', acceptable r' && same_path r' r) earlier = bool_decide (p ∈ seen).
Proof.
  intros Hs Hp. apply eq_true_iff_eq. rewrite existsb_exists, bool_decide_eq_true, (Hs p).
  split; intros (r' & Hin & H); exists r'.
  - apply andb_true_iff in H as [Hacc Hsame]. apply bool_decide_eq_true in Hsame.
    split_and!; [by apply list_elem_of_In|done|congruence].
  - destruct H as [Hacc Hp']. split; [by apply list_elem_of_In|].
    rewrite Hacc. apply bool_decide_eq_true. congruence.
Qed.

Lemma accepted_dedup_first (seen : gset string) (earlier later : list Dict) :
  seen_of seen earlier → accepted seen later = dedup_first earlier later.
Proof.
  revert seen earlier. induction later as [|r later IH]; intros seen earlier Hs; [done|].
  simpl. unfold acceptable at 1.
  destruct (Py.get r "path") as [p|] eqn:Hp; simpl.
  - rewrite (seen_before seen earlier r p) by done.
    destruct (truthy p) eqn:Hpt; simpl.
    + destruct (bool_decide (p ∈ seen)) eqn:Hseen.
      * rewrite andb_false_r. simpl. apply IH, seen_of_skip; [done|].
        intros _. exists p. split; [done|]. by apply bool_decide_eq_true in Hseen.
      * rewrite andb_true_r. destruct (has_required_keys r) eqn:Hk; simpl.
        -- f_equal. apply IH, seen_of_add; [done| |done].
           unfold acceptable. by rewrite Hp, Hk; simpl; rewrite Hpt.
        -- apply IH, seen_of_skip; [done|]. unfold acceptable. by rewrite Hk, andb_false_r.
    + apply IH, seen_of_skip; [done|]. unfold acceptable. rewrite Hp. simpl. by rewrite Hpt.
  - apply IH, seen_of_skip; [done|]. unfold acceptable. by rewrite Hp.
Qed.

Lemma seen_of_empty : seen_of ∅ [].
Proof.
  intros p. split; [by intros ?%elem_of_empty|].
  by intros (r & ?%elem_of_nil & _).
Qed.

Lemma batches_concat (batch_size : Z) (stream : list Dict) :
  concat (batches batch_size stream) = dedup_first [] stream.
Proof.
  unfold batches. rewrite batch_loop_concat. simpl.
  apply accepted_dedup_first, seen_of_empty.
Qed.

Lemma dedup_first_sublist (earlier later : list Dict) :
  sublist (dedup_first earlier later) later.
Proof.
  revert earlier. induction later as [|r later IH]; intros earlier; simpl; [done|].
  destruct (_ && _); simpl; [by apply sublist_skip|by apply sublist_cons].
Qed.

Lemma dedup_first_elem (earlier later : list Dict) (r : Dict) :
  r ∈ dedup_first earlier later →
  acceptable r = true ∧
  ∀ r', r' ∈ earlier → acceptable r' = true → Py.get r' "path" ≠ Py.get r "path".
Proof.
  revert earlier. induction later as [|r0 later IH]; intros earlier; simpl.
  { by intros ?%elem_of_nil. }
  rewrite elem_of_app. intros [Hin|Hin].
  - destruct (acceptable r0) eqn:Hacc; simpl in Hin; [|by apply elem_of_nil in Hin].
    destruct (existsb _ earlier) eqn:Hex; simpl in Hin; [by apply elem_of_nil in Hin|].
    apply list_elem_of_singleton in Hin as ->. split; [done|].
    intros r' Hr' Hacc' Heq.
    assert (existsb (λ r', acceptable r' && same_path r' r0) earlier = true); [|congruence].
    apply existsb_exists. exists r'. split; [by apply list_elem_of_In|].
    rewrite Hacc'. by apply bool_decide_eq_true.
  - destruct (IH _ Hin) as [Hacc Hne]. split; [done|].
    intros r' Hr'. apply Hne, elem_of_app. by left.
Qed.

Lemma dedup_first_NoDup (earlier later : list Dict) :
  NoDup ((λ r, Py.get r "path") <$> dedup_first earlier later).
Proof.
  revert earlier. induction later as [|r0 later IH]; intros earlier; simpl.
  { constructor. }
  destruct (_ && _) eqn:Hc; simpl; [|apply IH].
  apply NoDup_cons. split; [|apply IH].
  intros (r & Heq & Hin)%list_elem_of_fmap.
  apply dedup_first_elem in Hin as [_ Hne].
  apply (Hne r0); [|by apply andb_true_iff in Hc as [? _]|done].
  apply elem_of_app. right. by apply list_elem_of_singleton.
Qed.

(** C2: for a positive batch size [B], the batcher keeps the first record of
    each path (later records of a path already seen are dropped, none is
    changed), and for the [N] records kept it yields [ceil(N/B)] batches,
    all but the last of [B] records and the last of [N mod B] records, or
    [B] when [B] divides [N]; the batches concatenated are the kept records
    in stream order. *)
Theorem batches_of_deduplicated_stream (stream : list Dict) (batch_size : Z) :
  (0 < batch_size)%Z →
  let B := Z.to_nat batch_size in
  let deduplicated := dedup_first [] stream in
  let N := length deduplicated in
  let out := batches batch_size stream in
  sublist deduplicated stream
  ∧ NoDup ((λ r, Py.get r "path") <$> deduplicated)
  ∧ concat out = deduplicated
  ∧ length out = ceil_div N B
  ∧ (∀ i b, out !! i = Some b → i + 1 < length out → length b = B)
  ∧ (∀ b, last out = Some b → length b = if N mod B =? 0 then B else N mod B).
Proof.
  intros Hpos B deduplicated N out.
  assert (0 < B) as HB by lia.
  assert (concat out = deduplicated) as Hcat by apply batches_concat.
  destruct (batch_loop_shape B stream [] ∅) as (full & rem & Hout & Hfull & Hrem);
    [simpl; lia|].
  unfold B in Hout at 1. rewrite Z2Nat.id in Hout by lia.
  fold (batches batch_size stream) in Hout. fold out in Hout.
  assert (N = B * length full + length rem) as HN.
  { unfold N. rewrite <- Hcat, Hout, concat_app, length_app, (concat_full_length B) by done.
    destruct rem; simpl; [done|]. by rewrite app_nil_r. }
  split_and!.
  - apply dedup_first_sublist.
  - apply dedup_first_NoDup.
  - done.
  - rewrite Hout, length_app. unfold ceil_div. destruct rem as [|r rem]; simpl in *.
    + apply (Nat.div_unique _ _ _ (B - 1)); lia.
    + apply (Nat.div_unique _ _ _ (length rem)); lia.
  - intros i b Hi Hlt. rewrite Hout in Hi, Hlt. rewrite length_app in Hlt.
    destruct (decide (i < length full)) as [Hif|Hif].
    + rewrite lookup_app_l in Hi by done. rewrite Forall_forall in Hfull.
      eapply Hfull, list_elem_of_lookup_2, Hi.
    + destruct rem; simpl in Hlt; lia.
  - intros b Hb. rewrite Hout in Hb. destruct rem as [|r rem]; simpl in *.
    + rewrite app_nil_r in Hb. apply last_Some_elem_of in Hb.
      rewrite Forall_forall in Hfull. rewrite (Hfull b Hb).
      assert (N mod B = 0) as ->; [|done].
      symmetry. apply (Nat.mod_unique _ _ (length full)); lia.
    + rewrite last_snoc in Hb. injection Hb as <-. simpl.
      assert (N mod B = S (length rem)) as ->; [|done].
      symmetry. apply (Nat.mod_unique _ _ (length full)); lia.
Qed.

Example batches_stream_five :
  batches 2 stream_five =
  [[[("path", "X"); ("documentation", "d1"); ("units", "none"); ("ids_name", "X")];
    [("path", "X/a"); ("documentation", "d2"); ("units", "m"); ("ids_name", "X")]];
   [[("path", "X/b"); ("documentation", "d6"); ("units", "s"); ("ids_name", "X")]]].
Proof. vm_compute. reflexivity. Qed.

Lemma batches_of_deduplicated_stream_witness :
  (0 < 2)%Z ∧
  concat (batches 2 stream_five) = dedup_first [] stream_five ∧
  length (batches 2 stream_five) = ceil_div (length (dedup_first [] stream_five)) 2.
Proof.
  assert (0 < 2)%Z as H by lia.
  destruct (batches_of_deduplicated_stream stream_five 2 H) as (_ & _ & Hcat & Hlen & _).
  split_and!; [exact H|exact Hcat|exact Hlen].
Defined.

(** C9: a record that lacks [path], [documentation] or [ids_name] is dropped
    and the records after it are processed as if it had not been there; every
    record of a yielded batch has the three keys.  (No operation of the loop
    can raise on a record with [str] values, so the model has no error
    result.) *)
Theorem record_missing_key_dropped (batch_size : Z) (before after : list Dict) (r : Dict) :
  contains r "path" = false ∨ contains r "documentation" = false
    ∨ contains r "ids_name" = false →
  batches batch_size (before ++ r :: after) = batches batch_size (before ++ after)
  ∧ ∀ batch r', batch ∈ batches batch_size (before ++ r :: after) → r' ∈ batch →
      contains r' "path" = true ∧ contains r' "documentation" = true
      ∧ contains r' "ids_name" = true.
Proof.
  intros Hmiss. split.
  - assert (has_required_keys r = false) as Hk.
    { unfold has_required_keys. simpl.
      destruct Hmiss as [H|[H|H]]; rewrite H, ?andb_false_r; done. }
    unfold batches. generalize (@nil Dict) (∅ : gset string).
    induction before as [|r0 before IH]; intros buf seen; simpl.
    + rewrite Hk. by destruct (_ || _).
    + destruct (_ || _); [apply IH|]. destruct (has_required_keys r0); [|apply IH].
      destruct (_ <=? _)%Z; [f_equal|]; apply IH.
  - intros batch r' Hbatch Hr'.
    assert (r' ∈ dedup_first [] (before ++ r :: after)) as Hin.
    { rewrite <- (batches_concat batch_size). apply list_elem_of_In, in_concat.
      exists batch. by rewrite <- !list_elem_of_In. }
    apply dedup_first_elem in Hin as [Hacc _].
    apply andb_true_iff in Hacc as [_ Hk]. unfold has_required_keys in Hk. simpl in Hk.
    rewrite !andb_true_iff in Hk. destruct Hk as (H1 & H2 & H3 & _). done.
Qed.

Lemma record_missing_key_dropped_witness :
  (contains record_undocumented "path" = false
    ∨ contains record_undocumented "documentation" = false
    ∨ contains record_undocumented "ids_name" = false) ∧
  batches 2 (take 4 stream_five ++ record_undocumented :: drop 5 stream_five)
  = batches 2 (take 4 stream_five ++ drop 5 stream_five).
Proof.
  assert (contains record_undocumented "path" = false
    ∨ contains record_undocumented "documentation" = false
    ∨ contains record_undocumented "ids_name" = false) as H by (right; left; reflexivity).
  split; [exact H|].
  exact (proj1 (record_missing_key_dropped 2 (take 4 stream_five) (drop 5 stream_five)
                  record_undocumented H)).
Defined.

(** ** The schema tree *)

Lemma at_loc_app (e : Element) (l1 l2 : Loc) :
  at_loc e (l1 ++ l2) = at_loc e l1 ≫= λ e', at_loc e' l2.
Proof.
  revert e. induction l1 as [|i l1 IH]; intros e; simpl; [done|].
  destruct (children e !! i); [apply IH|done].
Qed.

Lemma at_loc_prefix (e : Element) (l1 l2 : Loc) :
  is_Some (at_loc e (l1 ++ l2)) → is_Some (at_loc e l1).
Proof. rewrite at_loc_app. destruct (at_loc e l1); [by eauto|by intros [? ?]]. Qed.

Lemma iter_unfold (e : Element) :
  iter e = [] :: concat (imap (λ i ls, List.map (cons i) ls) (List.map iter (children e))).
Proof. by destruct e. Qed.

Lemma iter_cons_elem (e : Element) (i : nat) (l : Loc) :
  i :: l ∈ iter e ↔ ∃ c, children e !! i = Some c ∧ l ∈ iter c.
Proof.
  rewrite iter_unfold, elem_of_cons, list_elem_of_In, in_concat. split.
  - intros [[=]|(ls & Hls & Hin)].
    apply list_elem_of_In, elem_of_lookup_imap in Hls as (j & ls' & -> & Hj).
    apply in_map_iff in Hin as (l' & [= <- <-] & Hl').
    change (List.map iter (children e)) with (iter <$> children e) in Hj.
    apply list_lookup_fmap_Some in Hj as (c & -> & Hc).
    exists c. split; [done|]. by apply list_elem_of_In.
  - intros (c & Hc & Hl). right. exists (List.map (cons i) (iter c)). split.
    + apply list_elem_of_In, elem_of_lookup_imap. exists i, (iter c). split; [done|].
      change (List.map iter (children e)) with (iter <$> children e).
      by rewrite list_lookup_fmap, Hc.
    + apply in_map, list_elem_of_In, Hl.
Qed.

(** [iter] lists exactly the positions of the tree. *)
Lemma iter_elem (e : Element) (l : Loc) : l ∈ iter e ↔ is_Some (at_loc e l).
Proof.
  revert e. induction l as [|i l IH]; intros e.
  - simpl. rewrite iter_unfold. split; [by eauto|]. intros _. by left.
  - rewrite iter_cons_elem. simpl. split.
    + intros (c & -> & Hl). by apply IH.
    + destruct (children e !! i) as [c|]; [|by intros [? ?]].
      intros Hl. exists c. split; [done|]. by apply IH.
Qed.

Lemma tail_iter_elem (e : Element) (l : Loc) :
  l ∈ tail (iter e) ↔ l ≠ [] ∧ is_Some (at_loc e l).
Proof.
  destruct l as [|i l].
  - split; [|by intros [? _]]. rewrite iter_unfold. simpl.
    intros Hin. apply list_elem_of_In, in_concat in Hin as (ls & Hls & Hin).
    apply list_elem_of_In, elem_of_lookup_imap in Hls as (j & ls' & -> & _).
    by apply in_map_iff in Hin as (l' & [=] & _).
  - rewrite <- iter_elem. rewrite (iter_unfold e). simpl. rewrite elem_of_cons.
    split; [by auto|]. by intros [_ [[=]|?]].
Qed.

Lemma findall_named_elem (root : Element) (node elem : Loc) :
  elem ∈ findall_named root node →
  ∃ rel, elem = node ++ rel ∧ rel ≠ [] ∧ is_Some (at_loc root (node ++ rel)).
Proof.
  unfold findall_named. destruct (at_loc root node) as [e|] eqn:He; [|by intros ?%elem_of_nil].
  intros [_ Hin]%list_elem_of_filter.
  apply list_elem_of_In, in_map_iff in Hin as (rel & <- & Hrel).
  apply list_elem_of_In, tail_iter_elem in Hrel as [Hne Hsome].
  exists rel. split_and!; [done..|]. by rewrite at_loc_app, He.
Qed.

(** ** The map of parents *)

Lemma parent_pairs_elem (root : Element) (c p : Loc) :
  (c, p) ∈ parent_pairs root ↔ ∃ i, c = p ++ [i] ∧ is_Some (at_loc root c).
Proof.
  unfold parent_pairs. rewrite list_elem_of_In, in_flat_map. split.
  - intros (p' & Hp' & Hin). destruct (at_loc root p') as [e|] eqn:He; [|done].
    apply list_elem_of_In, elem_of_lookup_imap in Hin as (i & c' & [= -> ->] & Hi).
    exists i. split; [done|]. rewrite at_loc_app, He. simpl. rewrite Hi. by eauto.
  - intros (i & -> & Hc). exists p.
    assert (is_Some (at_loc root p)) as [e He] by (by eapply at_loc_prefix).
    split; [by apply list_elem_of_In, iter_elem; rewrite He|].
    rewrite He. rewrite at_loc_app, He in Hc. simpl in Hc.
    destruct (children e !! i) as [c'|] eqn:Hi; [|by destruct Hc].
    apply list_elem_of_In, elem_of_lookup_imap. by exists i, c'.
Qed.

Lemma foldl_insert_lookup (pairs : list (Loc * Loc)) (m : gmap Loc Loc) (c : Loc) :
  (∀ cp, cp ∈ pairs → cp.2 = removelast cp.1) →
  foldl (λ m cp, <[cp.1 := cp.2]> m) m pairs !! c
  = if decide (c ∈ pairs.*1) then Some (removelast c) else m !! c.
Proof.
  revert m. induction pairs as [|[c' p'] pairs IH]; intros m Hf.
  - done.
  - simpl foldl. rewrite IH by (intros; apply Hf; by right).
    assert (p' = removelast c') as -> by (apply (Hf (c', p')); by left).
    rewrite fmap_cons. simpl.
    destruct (decide (c ∈ pairs.*1)) as [H1|H1];
      destruct (decide (c ∈ c' :: pairs.*1)) as [H2|H2]; [done| | |].
    + exfalso. apply H2. by right.
    + apply elem_of_cons in H2 as [->|H2]; [|done]. by rewrite lookup_insert_eq.
    + apply not_elem_of_cons in H2 as [Hne _]. by rewrite lookup_insert_ne.
Qed.

Lemma parent_map_lookup (root : Element) (c : Loc) :
  parent_map_of root !! c
  = if decide (c ≠ [] ∧ is_Some (at_loc root c)) then Some (removelast c) else None.
Proof.
  unfold parent_map_of. rewrite foldl_insert_lookup.
  - rewrite lookup_empty.
    destruct (decide (c ≠ [] ∧ is_Some (at_loc root c))) as [[Hne Hv]|Hn].
    + rewrite decide_True; [done|].
      apply list_elem_of_fmap. exists (c, removelast c). split; [done|].
      apply parent_pairs_elem. destruct (exists_last Hne) as (l & i & ->).
      exists i. by rewrite removelast_last.
    + rewrite decide_False; [done|]. intros Hin. apply Hn.
      apply list_elem_of_fmap in Hin as ([c' p'] & -> & (i & -> & Hv)%parent_pairs_elem).
      split; [by destruct p'|done].
  - intros [c' p'] (i & -> & _)%parent_pairs_elem. simpl. by rewrite removelast_last.
Qed.

(** ** The upward walk *)

Lemma walk_step_walker root pm ids_name w st :
  walker (walk_step root pm ids_name w st) = pm !! w.
Proof. unfold walk_step. by repeat case_match. Qed.

Lemma walk_step_units root pm ids_name w st :
  units (walk_step root pm ids_name w st)
  = match pm !! w with
    | Some p => inherit (units st) (ET.get root p "units")
    | None => units st
    end.
Proof. unfold walk_step, inherit. by repeat case_match. Qed.

Lemma removelast_app_ne (l1 l2 : Loc) : l2 ≠ [] → removelast (l1 ++ l2) = l1 ++ removelast l2.
Proof. intros. by apply removelast_app. Qed.

Lemma app_ne_self (l1 l2 : Loc) : l2 ≠ [] → l1 ++ l2 ≠ l1.
Proof.
  intros Hne Heq. apply (f_equal length) in Heq. rewrite length_app in Heq.
  destruct l2; [done|simpl in Heq; lia].
Qed.

(** The loop leaves through its condition, and resolves the units along the
    chain of parents of the element. *)
Lemma walk_loop_units (root : Element) (ids_node : Loc) (ids_name : string) (n : nat) :
  ∀ (fuel : nat) (rel : Loc) (st : Walk),
    length rel = n → n ≤ fuel →
    walker st = Some (ids_node ++ rel) →
    is_Some (at_loc root (ids_node ++ rel)) →
    let st' := walk_loop fuel root (parent_map_of root) ids_node ids_name st in
    walking ids_node st' = false
    ∧ units st' = inherit_along (units st) (ancestor_units root ids_node rel).
Proof.
  induction n as [|n IH]; intros fuel rel st Hlen Hfuel Hw Hv.
  - destruct rel; [|done]. rewrite app_nil_r in Hw.
    assert (walk_loop fuel root (parent_map_of root) ids_node ids_name st = st) as ->.
    { destruct fuel; simpl; [done|]. rewrite Hw. by rewrite decide_True. }
    split; [|done]. unfold walking. rewrite Hw. apply bool_decide_eq_false. by intros H.
  - destruct fuel as [|fuel]; [lia|].
    assert (rel ≠ []) as Hne by (by destruct rel).
    simpl. rewrite Hw. rewrite decide_False by (by apply app_ne_self).
    set (st1 := walk_step _ _ _ _ st).
    assert (parent_map_of root !! (ids_node ++ rel) = Some (ids_node ++ removelast rel)) as Hp.
    { rewrite parent_map_lookup, decide_True, removelast_app_ne; [done..|].
      split; [|done]. intros [_ ?]%app_eq_nil. done. }
    assert (length (removelast rel) = n) as Hlen'.
    { destruct (exists_last Hne) as (l & i & ->).
      rewrite removelast_last. rewrite length_app in Hlen. simpl in Hlen. lia. }
    assert (is_Some (at_loc root (ids_node ++ removelast rel))) as Hv'.
    { destruct (exists_last Hne) as (l & i & ->). rewrite removelast_last.
      rewrite app_assoc in Hv. by eapply at_loc_prefix. }
    destruct (IH fuel (removelast rel) st1 Hlen' ltac:(lia)) as [Hdone Hunits]; [|done|].
    { unfold st1. by rewrite walk_step_walker. }
    split; [done|]. rewrite Hunits. unfold st1. rewrite walk_step_units, Hp.
    unfold ancestor_units. rewrite Hlen, Hlen'. simpl.
    by rewrite removelast_app_ne.
Qed.

(** The bound on the iterations is never what ends the loop: any two bounds
    of at least the depth of the element below the structure give the same
    result. *)
Lemma walk_loop_fuel_enough (root : Element) (ids_node : Loc) (ids_name : string) (n : nat) :
  ∀ (fuel fuel' : nat) (rel : Loc) (st : Walk),
    length rel = n → n ≤ fuel → n ≤ fuel' →
    walker st = Some (ids_node ++ rel) →
    is_Some (at_loc root (ids_node ++ rel)) →
    walk_loop fuel root (parent_map_of root) ids_node ids_name st
    = walk_loop fuel' root (parent_map_of root) ids_node ids_name st.
Proof.
  induction n as [|n IH]; intros fuel fuel' rel st Hlen Hfuel Hfuel' Hw Hv.
  - destruct rel; [|done]. rewrite app_nil_r in Hw.
    assert (∀ k, walk_loop k root (parent_map_of root) ids_node ids_name st = st) as Hst.
    { intros [|k]; simpl; [done|]. rewrite Hw. by rewrite decide_True. }
    by rewrite !Hst.
  - destruct fuel as [|fuel]; [lia|]. destruct fuel' as [|fuel']; [lia|].
    assert (rel ≠ []) as Hne by (by destruct rel).
    simpl. rewrite Hw. rewrite !decide_False by (by apply app_ne_self).
    destruct (exists_last Hne) as (l & i & ->).
    rewrite length_app in Hlen. simpl in Hlen.
    apply (IH fuel fuel' l); [lia..| |].
    + rewrite walk_step_walker, parent_map_lookup, decide_True.
      * by rewrite app_assoc, removelast_last.
      * split; [|done]. intros [_ [? ?]%app_eq_nil]%app_eq_nil. done.
    + rewrite app_assoc in Hv. by eapply at_loc_prefix.
Qed.

Lemma inherit_along_settled (u : string) (chain : list (option string)) :
  u ≠ as_parent → inherit_along u chain = u.
Proof.
  intros Hu. induction chain as [|pu chain IH]; simpl; [done|].
  unfold inherit. by apply String.eqb_neq in Hu as ->.
Qed.

Lemma inherit_along_marker (chain : list (option string)) (s : string) :
  nearest_concrete chain = Some s → inherit_along as_parent chain = s.
Proof.
  induction chain as [|pu chain IH]; simpl; [done|].
  unfold inherit. simpl. destruct pu as [pu|]; simpl; [|done].
  destruct (truthy pu) eqn:Hpu; simpl; [|done].
  destruct (String.eqb pu as_parent) eqn:Heq; simpl.
  - apply String.eqb_eq in Heq as ->. done.
  - intros [= <-]. apply inherit_along_settled. by apply String.eqb_neq.
Qed.

Lemma nearest_concrete_is_concrete (chain : list (option string)) (s : string) :
  nearest_concrete chain = Some s → s ≠ "" ∧ s ≠ as_parent.
Proof.
  induction chain as [|pu chain IH]; simpl; [done|].
  destruct (is_concrete pu) eqn:Hc; [|done]. intros ->. simpl in Hc.
  apply andb_true_iff in Hc as [H1 H2]. split; [by apply truthy_nonempty|].
  apply negb_true_iff in H2. by apply String.eqb_neq.
Qed.

(** ** The records of the extractor *)

(** Where a record of [_get_document] comes from: a selected top-level
    structure, and either that structure itself or a named descendant. *)
Lemma get_document_elem (root : Element) (ids_set : option (gset string)) (record : Dict) :
  record ∈ _get_document root ids_set →
  ∃ ids_node ids_name,
    ids_node ∈ findall_IDS_named root []
    ∧ ET.get root ids_node "name" = Some ids_name
    ∧ ids_name ≠ ""
    ∧ ids_name ∈ _get_ids_set root ids_set
    ∧ (record = ids_record root ids_node ids_name
       ∨ ∃ rel, rel ≠ [] ∧ is_Some (at_loc root (ids_node ++ rel))
           ∧ _build_element_entry root (ids_node ++ rel) ids_node ids_name
               (parent_map_of root) = Some record).
Proof.
  unfold _get_document. rewrite list_elem_of_In, in_flat_map.
  intros (ids_node & Hnode & Hrec).
  apply list_elem_of_In, list_elem_of_filter in Hnode as [Hsel Hnode].
  unfold name_in in Hsel. unfold ids_documents in Hrec.
  destruct (ET.get root ids_node "name") as [ids_name|] eqn:Hname; [|done].
  destruct (truthy ids_name) eqn:Ht; [|done].
  exists ids_node, ids_name. split_and!; [done..|by apply truthy_nonempty| |].
  { by apply bool_decide_unpack in Hsel. }
  destruct Hrec as [<-|Hrec]; [by left|]. right.
  apply list_elem_of_In, list_elem_of_omap in Hrec as (elem & Helem & Hentry).
  apply findall_named_elem in Helem as (rel & -> & Hne & Hv). by exists rel.
Qed.

Lemma build_element_entry_Some (root : Element) (elem ids_node : Loc)
    (ids_name : string) (pm : gmap Loc Loc) (record : Dict) :
  _build_element_entry root elem ids_node ids_name pm = Some record →
  let st := walk_loop (walk_fuel elem) root pm ids_node ids_name
              (MkWalk (Some elem) [] [] (ET.get_default root elem "units" "")) in
  Py.get record "path" = Some (ids_name +:+ "/" +:+ join "/" (path_parts st))
  ∧ Py.get record "units" = Some (if truthy (units st) then units st else "none")
  ∧ Py.get record "ids_name" = Some ids_name.
Proof.
  unfold _build_element_entry. cbv zeta. intros H.
  destruct (path_parts _); [done|]. by injection H as <-.
Qed.

(** C10: the path of every record is its [ids_name], or begins with its
    [ids_name] followed by [/]; and [ids_name] is the name of a selected
    top-level structure of the schema. *)
Theorem record_path_under_ids_name (root : Element) (ids_set : option (gset string))
    (record : Dict) :
  record ∈ _get_document root ids_set →
  ∃ path ids_name,
    Py.get record "path" = Some path
    ∧ Py.get record "ids_name" = Some ids_name
    ∧ (path = ids_name ∨ ∃ rest, path = ids_name +:+ "/" +:+ rest)
    ∧ ∃ ids_node, ids_node ∈ findall_IDS_named root []
        ∧ ET.get root ids_node "name" = Some ids_name
        ∧ ids_name ∈ _get_ids_set root ids_set.
Proof.
  intros (ids_node & ids_name & Hnode & Hname & _ & Hsel & Hrec)%get_document_elem.
  destruct Hrec as [->|(rel & _ & _ & Hentry)].
  - exists ids_name, ids_name. split_and!; [done|done|by left|by eauto].
  - apply build_element_entry_Some in Hentry as (Hpath & _ & Hids).
    eexists _, ids_name. split_and!; [exact Hpath|done|by eauto|by eauto].
Qed.

Lemma record_XYZ_yielded : record_XYZ ∈ _get_document schema_XYZ None.
Proof. apply list_elem_of_In. vm_compute. right. right. left. reflexivity. Qed.

Lemma record_path_under_ids_name_witness :
  record_XYZ ∈ _get_document schema_XYZ None ∧
  ∃ path ids_name,
    Py.get record_XYZ "path" = Some path
    ∧ Py.get record_XYZ "ids_name" = Some ids_name
    ∧ (path = ids_name ∨ ∃ rest, path = ids_name +:+ "/" +:+ rest)
    ∧ ∃ ids_node, ids_node ∈ findall_IDS_named schema_XYZ []
        ∧ ET.get schema_XYZ ids_node "name" = Some ids_name
        ∧ ids_name ∈ _get_ids_set schema_XYZ None.
Proof.
  split; [exact record_XYZ_yielded|].
  exact (record_path_under_ids_name schema_XYZ None record_XYZ record_XYZ_yielded).
Defined.

(** C8: the records the code yields for the schema of the scenario.  The
    first two are the records of the scenario.  The third has the path and
    the units of the scenario, but its documentation leads with a leaf line
    [**X/Y/Z**] that carries the text of [Y]: the walk files the text of an
    ancestor under the path collected so far. *)
Theorem scenario_XYZ_records :
  _get_document schema_XYZ None =
  [ [("path", "X"); ("documentation", "root doc"); ("units", "none"); ("ids_name", "X")];
    [("path", "X/Y");
     ("documentation",
       "**X/Y**" +:+ nl +:+ "child doc" +:+ nl +:+ nl +:+ "## Hierarchical Context"
       +:+ nl +:+ nl +:+ "### X" +:+ nl +:+ "root doc");
     ("units", "m");
     ("ids_name", "X")];
    record_XYZ ]
  ∧ _get_document schema_XYZ (Some {["X"]}) = _get_document schema_XYZ None.
Proof. split; vm_compute; reflexivity. Qed.

Lemma entry_units_spec (own : option string) (chain : list (option string)) :
  let u := entry_units own chain in
  (own = None ∨ own = Some "" → u = "none")
  ∧ (is_concrete own = true → own = Some u)
  ∧ (own = Some as_parent → ∀ s, nearest_concrete chain = Some s → u = s)
  ∧ (own ≠ Some as_parent ∨ is_Some (nearest_concrete chain) → u ≠ as_parent ∧ u ≠ "").
Proof.
  assert (∀ s, s ≠ "" → s ≠ as_parent → entry_units (Some s) chain = s) as Hconcrete.
  { intros s Hs1 Hs2. unfold entry_units. simpl.
    rewrite inherit_along_settled by done. by apply truthy_nonempty in Hs1 as ->. }
  assert (entry_units None chain = "none" ∧ entry_units (Some "") chain = "none") as [Hn He].
  { unfold entry_units. simpl. by rewrite inherit_along_settled. }
  assert (∀ s, nearest_concrete chain = Some s → entry_units (Some as_parent) chain = s)
    as Hmarker.
  { intros s Hs. unfold entry_units. simpl. rewrite (inherit_along_marker chain s Hs).
    apply nearest_concrete_is_concrete in Hs as [Hs _].
    by apply truthy_nonempty in Hs as ->. }
  intros u. unfold u. split_and!.
  - by intros [->| ->].
  - destruct own as [s|]; simpl; [|done]. intros [H1 H2]%andb_true_iff.
    rewrite Hconcrete; [done|by apply truthy_nonempty|].
    apply negb_true_iff in H2. by apply String.eqb_neq.
  - intros ->. apply Hmarker.
  - destruct own as [s|].
    + destruct (decide (s = as_parent)) as [->|Hs].
      * intros [?|[s Hs]]; [done|]. rewrite (Hmarker s Hs).
        apply nearest_concrete_is_concrete in Hs as [Hs1 Hs2]. done.
      * intros _. destruct (decide (s = "")) as [->|Hs'].
        -- by rewrite He.
        -- by rewrite Hconcrete.
    + intros _. by rewrite Hn.
Qed.

Lemma build_element_entry_units (root : Element) (ids_node rel : Loc)
    (ids_name : string) (record : Dict) :
  is_Some (at_loc root (ids_node ++ rel)) →
  _build_element_entry root (ids_node ++ rel) ids_node ids_name (parent_map_of root)
    = Some record →
  Py.get record "units"
  = Some (entry_units (ET.get root (ids_node ++ rel) "units")
            (ancestor_units root ids_node rel)).
Proof.
  intros Hv (_ & -> & _)%build_element_entry_Some.
  destruct (walk_loop_units root ids_node ids_name (length rel)
              (walk_fuel (ids_node ++ rel)) rel
              (MkWalk (Some (ids_node ++ rel)) [] []
                 (ET.get_default root (ids_node ++ rel) "units" "")))
    as [_ ->]; [done| |done..|].
  { unfold walk_fuel. rewrite length_app. lia. }
  unfold entry_units, ET.get_default. simpl.
  by destruct (ET.get root (ids_node ++ rel) "units").
Qed.

(** C1, as stated: no record has the marker as its units, and the units are
    [none] when neither the node nor an ancestor carries a concrete unit.
    It fails for a field that carries the marker under a structure without
    units, and for a structure that carries the marker itself. *)
Lemma units_marker_survives :
  (λ r, Py.get r "units") <$> _get_document schema_unresolved None
    = [Some "none"; Some "as_parent"]
  ∧ (λ r, Py.get r "units") <$> _get_document schema_root_marker None
    = [Some "as_parent"].
Proof. split; vm_compute; reflexivity. Qed.

(** C1, amended: the units of the record of a top-level structure are its
    raw [units] attribute, or [none] when it has none.  The units of the
    record of a descendant are [none] when the element has no units or empty
    ones, its own units when these are concrete, and, when it carries the
    marker, the concrete units of the nearest ancestor that has some, up to
    and including the top-level structure; in each of these cases they are
    neither the marker nor empty. *)
Theorem units_of_record (root : Element) (ids_set : option (gset string)) (record : Dict) :
  record ∈ _get_document root ids_set →
  ∃ ids_node ids_name u,
    ET.get root ids_node "name" = Some ids_name
    ∧ Py.get record "units" = Some u
    ∧ ((record = ids_record root ids_node ids_name
        ∧ u = default "none" (ET.get root ids_node "units"))
       ∨ ∃ rel, rel ≠ [] ∧ is_Some (at_loc root (ids_node ++ rel))
           ∧ _build_element_entry root (ids_node ++ rel) ids_node ids_name
               (parent_map_of root) = Some record
           ∧ let own := ET.get root (ids_node ++ rel) "units" in
             let inherited := nearest_concrete (ancestor_units root ids_node rel) in
             (own = None ∨ own = Some "" → u = "none")
             ∧ (is_concrete own = true → own = Some u)
             ∧ (own = Some as_parent → ∀ s, inherited = Some s → u = s)
             ∧ (own ≠ Some as_parent ∨ is_Some inherited → u ≠ as_parent ∧ u ≠ "")).
Proof.
  intros (ids_node & ids_name & _ & Hname & _ & _ & Hrec)%get_document_elem.
  exists ids_node, ids_name.
  destruct Hrec as [->|(rel & Hne & Hv & Hentry)].
  - eexists. split_and!; [done|reflexivity|]. left. split; [done|].
    unfold ET.get_default. by destruct (ET.get root ids_node "units").
  - eexists. split_and!;
      [done|exact (build_element_entry_units root ids_node rel ids_name record Hv Hentry)|].
    right. exists rel. split_and!; [done..|]. apply entry_units_spec.
Qed.

Lemma units_of_record_witness :
  record_XYZ ∈ _get_document schema_XYZ None ∧
  ∃ ids_node ids_name u,
    ET.get schema_XYZ ids_node "name" = Some ids_name
    ∧ Py.get record_XYZ "units" = Some u.
Proof.
  split; [exact record_XYZ_yielded|].
  destruct (units_of_record schema_XYZ None record_XYZ record_XYZ_yielded)
    as (ids_node & ids_name & u & Hname & Hu & _).
  by exists ids_node, ids_name, u.
Defined.

(** * Further properties of the code *)

(** ** The set of structures to process *)

Lemma get_ids_set_fold (root : Element) (nodes : list Loc) (acc : gset string) (name : string) :
  name ∈ foldl (λ all_ids_names elem,
            match ET.get root elem "name" with
            | Some name => if truthy name then {[name]} ∪ all_ids_names else all_ids_names
            | None => all_ids_names
            end) acc nodes
  ↔ name ∈ acc ∨ ∃ node, node ∈ nodes ∧ ET.get root node "name" = Some name ∧ name ≠ "".
Proof.
  revert acc. induction nodes as [|node nodes IH]; intros acc; simpl.
  - split; [by left|]. intros [?|(node & ?%elem_of_nil & _)]; done.
  - rewrite IH. clear IH. split.
    + intros [Hacc|(node' & Hin & Hname & Hne)].
      * destruct (ET.get root node "name") as [n|] eqn:Hn; [|by left].
        destruct (truthy n) eqn:Ht; [|by left].
        apply elem_of_union in Hacc as [->%elem_of_singleton|Hacc]; [|by left].
        right. exists node. split_and!; [by left|done|by apply truthy_nonempty].
      * right. exists node'. split_and!; [by right|done..].
    + intros [Hacc|(node' & Hin & Hname & Hne)].
      * left. destruct (ET.get root node "name") as [n|]; [|done].
        destruct (truthy n); [|done]. apply elem_of_union. by right.
      * apply elem_of_cons in Hin as [->|Hin].
        -- left. rewrite Hname. apply truthy_nonempty in Hne as ->.
           apply elem_of_union. left. by apply elem_of_singleton.
        -- right. by exists node'.
Qed.

(** X1: a configured set is used as it is; without one, the set holds
    exactly the non-empty names of the [IDS] elements of the schema that
    carry a [name] attribute. *)
Theorem get_ids_set_members (root : Element) (s : gset string) (name : string) :
  _get_ids_set root (Some s) = s
  ∧ (name ∈ _get_ids_set root None
     ↔ name ≠ "" ∧ ∃ node, node ∈ findall_IDS_named root []
                      ∧ ET.get root node "name" = Some name).
Proof.
  split; [done|]. unfold _get_ids_set. rewrite get_ids_set_fold. split.
  - intros [?%elem_of_empty|(node & Hin & Hname & Hne)]; [done|]. by eauto.
  - intros (Hne & node & Hin & Hname). right. by eauto.
Qed.

(** X2: [ids_names] lists the names of the set to process in ascending
    order, each name once. *)
Theorem ids_names_sorted (root : Element) (ids_set : option (gset string)) :
  StronglySorted str_le (ids_names root ids_set)
  ∧ NoDup (ids_names root ids_set)
  ∧ ∀ name, name ∈ ids_names root ids_set ↔ name ∈ _get_ids_set root ids_set.
Proof.
  unfold ids_names. split_and!.
  - apply sorted_str_strongly.
  - rewrite sorted_str_perm. apply NoDup_elements.
  - intros name. rewrite sorted_str_perm. apply elem_of_elements.
Qed.

(** X3: with an empty configured set nothing is extracted: no record, no
    batch, and a total of zero elements. *)
Theorem empty_selection_extracts_nothing (root : Element) (batch_size : Z) :
  _get_document root (Some ∅) = []
  ∧ _get_document_batch root (Some ∅) batch_size = []
  ∧ _total_elements root (Some ∅) = 0.
Proof.
  assert (filter (λ node, name_in root (∅ : gset string) node) (findall_IDS_named root [])
          = []) as Hnone.
  { induction (findall_IDS_named root []) as [|node nodes IH]; [done|].
    rewrite filter_cons_False; [done|]. unfold name_in.
    destruct (ET.get root node "name"); [|by intros H].
    rewrite bool_decide_eq_false_2; [by intros H|]. apply not_elem_of_empty. }
  assert (_get_document root (Some ∅) = []) as Hdoc.
  { unfold _get_document. simpl. by rewrite Hnone. }
  split_and!; [done| |].
  - unfold _get_document_batch. by rewrite Hdoc.
  - unfold _total_elements. simpl. by rewrite Hnone.
Qed.

(** ** The index name *)

Lemma append_length (a b : string) :
  String.length (a +:+ b) = String.length a + String.length b.
Proof. induction a as [|x a IH]; [done|]. rewrite append_cons. simpl. by rewrite IH. Qed.

Lemma substring_length_le (n : nat) (s : string) : String.length (substring 0 n s) ≤ n.
Proof.
  revert s. induction n as [|n IH]; intros [|x s]; simpl; try lia.
  specialize (IH s). lia.
Qed.

(** X4: the name of a non-empty subset is the name of the full schema
    followed by [-] and at most 8 characters, and so differs from the name
    of the full schema. *)
Theorem index_name_subset_suffix (md5_hexdigest : string → string)
    (index_prefix dd_version : string) (s : gset string) :
  s ≠ ∅ →
  let full := _get_index_name md5_hexdigest index_prefix dd_version None in
  let name := _get_index_name md5_hexdigest index_prefix dd_version (Some s) in
  (∃ h, name = full +:+ "-" +:+ h ∧ String.length h ≤ 8)
  ∧ name ≠ full
  ∧ String.length name ≤ String.length full + 9.
Proof.
  intros Hne full name.
  assert (∃ h, name = full +:+ "-" +:+ h ∧ String.length h ≤ 8) as (h & Hname & Hh).
  { unfold name, full, _get_index_name.
    assert ((0 <? size s) = true) as ->.
    { apply Nat.ltb_lt. destruct (decide (size s = 0)) as [H0|H0]; [|lia].
      by apply size_empty_iff, leibniz_equiv in H0. }
    eexists. split; [|apply substring_length_le]. by rewrite !append_assoc. }
  split_and!; [by eauto| |].
  - intros Heq. apply (f_equal String.length) in Heq.
    rewrite Hname, !append_length in Heq. simpl in Heq. lia.
  - rewrite Hname, !append_length. simpl. lia.
Qed.

Lemma index_name_subset_suffix_witness :
  ({["X"]} : gset string) ≠ ∅ ∧
  _get_index_name md5_stub "semantic" "3.40.0" (Some {["X"]})
  ≠ _get_index_name md5_stub "semantic" "3.40.0" None.
Proof.
  assert (({["X"]} : gset string) ≠ ∅) as H.
  { intros Heq. assert ("X" ∈ (∅ : gset string)) as Hin
      by (rewrite <- Heq; by apply elem_of_singleton).
    by apply elem_of_empty in Hin. }
  split; [exact H|].
  exact (proj1 (proj2 (index_name_subset_suffix md5_stub "semantic" "3.40.0" {["X"]} H))).
Defined.

(** ** The batcher *)

Lemma dedup_first_covers (earlier later : list Dict) (r : Dict) :
  r ∈ later → acceptable r = true →
  (∃ r', r' ∈ earlier ∧ acceptable r' = true ∧ Py.get r' "path" = Py.get r "path")
  ∨ (∃ r', r' ∈ dedup_first earlier later ∧ Py.get r' "path" = Py.get r "path").
Proof.
  revert earlier. induction later as [|r0 later IH]; intros earlier Hin Hacc.
  { by apply elem_of_nil in Hin. }
  assert (acceptable r0 = true →
          (∃ r', r' ∈ earlier ∧ acceptable r' = true ∧ Py.get r' "path" = Py.get r0 "path")
          ∨ r0 ∈ dedup_first earlier (r0 :: later)) as Hhead.
  { intros Hacc0. simpl. rewrite Hacc0. simpl.
    destruct (existsb _ earlier) eqn:Hex; simpl.
    - left. apply existsb_exists in Hex as (r' & Hr' & [H1 H2]%andb_true_iff).
      exists r'. split_and!; [by apply list_elem_of_In|done|].
      by apply bool_decide_eq_true in H2.
    - right. by left. }
  apply elem_of_cons in Hin as [->|Hin].
  - destruct (Hhead Hacc) as [?|?]; [by left|]. right. by exists r0.
  - destruct (IH (earlier ++ [r0]) Hin Hacc) as [(r' & Hr' & Hacc' & Hp)|(r' & Hr' & Hp)].
    + apply elem_of_app in Hr' as [Hr'|Hr'].
      * left. by exists r'.
      * apply list_elem_of_singleton in Hr' as ->.
        destruct (Hhead Hacc') as [(r'' & ? & ? & Hp')|Hkept].
        -- left. exists r''. split_and!; [done..|]. congruence.
        -- right. by exists r0.
    + right. exists r'. split; [|done]. simpl. apply elem_of_app. by right.
Qed.

(** X5: a path occurs in the yielded batches exactly when some record of the
    stream with the three keys has it as a non-empty path; nothing that can
    be accepted is lost, and nothing is made up. *)
Theorem batches_cover_paths (batch_size : Z) (stream : list Dict) (p : string) :
  (∃ r, r ∈ concat (batches batch_size stream) ∧ Py.get r "path" = Some p)
  ↔ (∃ r, r ∈ stream ∧ acceptable r = true ∧ Py.get r "path" = Some p).
Proof.
  rewrite batches_concat. split.
  - intros (r & Hin & Hp). exists r. split_and!; [|by eapply dedup_first_elem|done].
    by apply (sublist_subseteq _ _ (dedup_first_sublist [] stream)).
  - intros (r & Hin & Hacc & Hp).
    destruct (dedup_first_covers [] stream r Hin Hacc)
      as [(r' & ?%elem_of_nil & _)|(r' & Hr' & Hp')]; [done|].
    exists r'. split; [done|]. congruence.
Qed.

Lemma batch_loop_singletons (batch_size : Z) (stream : list Dict) (seen : gset string) :
  (batch_size ≤ 1)%Z →
  batch_loop batch_size stream [] seen = (λ r, [r]) <$> accepted seen stream.
Proof.
  intros HB. revert seen. induction stream as [|r rest IH]; intros seen; simpl; [done|].
  destruct (_ || _); [apply IH|]. destruct (has_required_keys r); [|apply IH].
  rewrite (proj2 (Z.leb_le _ _)) by lia. simpl. by rewrite IH.
Qed.

(** X6: with a batch size of one, zero or less, every kept record is
    yielded as a batch of its own. *)
Theorem batches_of_size_one (batch_size : Z) (stream : list Dict) :
  (batch_size ≤ 1)%Z →
  batches batch_size stream = (λ r, [r]) <$> dedup_first [] stream.
Proof.
  intros HB. unfold batches. rewrite batch_loop_singletons by done.
  by rewrite (accepted_dedup_first ∅ []) by apply seen_of_empty.
Qed.

Lemma batches_of_size_one_witness :
  (0 ≤ 1)%Z ∧ batches 0 stream_five = (λ r, [r]) <$> dedup_first [] stream_five.
Proof.
  assert (0 ≤ 1)%Z as H by lia.
  split; [exact H|]. exact (batches_of_size_one 0 stream_five H).
Defined.

Lemma batch_loop_accepted (batch_size : Z) (stream buf : list Dict) (seen : gset string) :
  batch_loop batch_size (accepted seen stream) buf seen
  = batch_loop batch_size stream buf seen.
Proof.
  revert buf seen. induction stream as [|r rest IH]; intros buf seen; [done|].
  simpl. destruct (_ || _) eqn:Hskip; [apply IH|].
  destruct (has_required_keys r) eqn:Hk; [|apply IH].
  simpl. rewrite Hskip, Hk. destruct (_ <=? _)%Z; [f_equal|]; apply IH.
Qed.

(** X7: the batches depend on the kept records alone: the records the
    batcher drops leave no trace, and batching the concatenation of the
    yielded batches again gives the same batches. *)
Theorem batches_idempotent (batch_size : Z) (stream : list Dict) :
  batches batch_size (dedup_first [] stream) = batches batch_size stream
  ∧ batches batch_size (concat (batches batch_size stream)) = batches batch_size stream.
Proof.
  assert (batches batch_size (dedup_first [] stream) = batches batch_size stream) as H.
  { rewrite <- (accepted_dedup_first ∅ []) by apply seen_of_empty.
    apply batch_loop_accepted. }
  split; [done|]. by rewrite batches_concat.
Qed.

(** ** The map of parents and the walk *)

(** X8: the map of parents has an entry for every element of the tree but
    the root, and the entry of an element is its parent. *)
Theorem parent_map_entries (root : Element) (c p : Loc) :
  parent_map_of root !! c = Some p
  ↔ is_Some (at_loc root c) ∧ ∃ i, c = p ++ [i].
Proof.
  rewrite parent_map_lookup. split.
  - case_decide as H; [|done]. destruct H as [Hne Hv]. intros [= <-].
    split; [done|]. destruct (exists_last Hne) as (l & i & ->).
    exists i. by rewrite removelast_last.
  - intros (Hv & i & ->). rewrite decide_True.
    + by rewrite removelast_last.
    + split; [|done]. intros [_ [=]]%app_eq_nil.
Qed.

Lemma walk_step_path_parts root pm ids_name w st :
  path_parts (walk_step root pm ids_name w st)
  = option_list (name_at root w) ++ path_parts st.
Proof.
  unfold walk_step, name_at.
  destruct (ET.get root w "name") as [name|]; [destruct (truthy name)|]; [|done..].
  destruct (ET.get root w "documentation") as [doc|]; [destruct (truthy doc)|]; done.
Qed.

(** The walk ends at the structure, with the names met on the way in front
    of the path parts. *)
Lemma walk_loop_path_parts (root : Element) (ids_node : Loc) (ids_name : string) (n : nat) :
  ∀ (fuel : nat) (rel : Loc) (st : Walk),
    length rel = n → n ≤ fuel →
    walker st = Some (ids_node ++ rel) →
    is_Some (at_loc root (ids_node ++ rel)) →
    let st' := walk_loop fuel root (parent_map_of root) ids_node ids_name st in
    walker st' = Some ids_node
    ∧ path_parts st' = names_down_to root n (ids_node ++ rel) ++ path_parts st.
Proof.
  induction n as [|n IH]; intros fuel rel st Hlen Hfuel Hw Hv.
  - destruct rel; [|done]. rewrite app_nil_r in Hw.
    assert (walk_loop fuel root (parent_map_of root) ids_node ids_name st = st) as ->.
    { destruct fuel; simpl; [done|]. rewrite Hw. by rewrite decide_True. }
    done.
  - destruct fuel as [|fuel]; [lia|].
    assert (rel ≠ []) as Hne by (by destruct rel).
    simpl walk_loop. rewrite Hw. rewrite decide_False by (by apply app_ne_self).
    destruct (exists_last Hne) as (l & i & ->).
    rewrite length_app in Hlen. simpl in Hlen.
    destruct (IH fuel l (walk_step root (parent_map_of root) ids_name
                           (ids_node ++ l ++ [i]) st)) as [Hend Hpp]; [lia..| | |].
    + rewrite walk_step_walker, parent_map_lookup, decide_True.
      * by rewrite app_assoc, removelast_last.
      * split; [|done]. intros [_ [? ?]%app_eq_nil]%app_eq_nil. done.
    + rewrite app_assoc in Hv. by eapply at_loc_prefix.
    + split; [done|]. rewrite Hpp, walk_step_path_parts. simpl names_down_to.
      by rewrite (app_assoc ids_node l [i]), removelast_last, <- !app_assoc.
Qed.

(** X9: for an element below a structure, the walk ends at the structure
    whatever bound at least its depth is put on the iterations, and the
    bound does not change its result. *)
Theorem walk_ends_at_structure (root : Element) (ids_node rel : Loc)
    (ids_name : string) (st : Walk) (fuel : nat) :
  is_Some (at_loc root (ids_node ++ rel)) →
  walker st = Some (ids_node ++ rel) →
  length rel ≤ fuel →
  walker (walk_loop fuel root (parent_map_of root) ids_node ids_name st) = Some ids_node
  ∧ walk_loop fuel root (parent_map_of root) ids_node ids_name st
    = walk_loop (walk_fuel (ids_node ++ rel)) root (parent_map_of root) ids_node ids_name st.
Proof.
  intros Hv Hw Hfuel. split.
  - by apply (walk_loop_path_parts root ids_node ids_name (length rel) fuel rel st).
  - apply (walk_loop_fuel_enough root ids_node ids_name (length rel) fuel _ rel st);
      [done..| |done|done].
    unfold walk_fuel. rewrite length_app. lia.
Qed.

Lemma walk_ends_at_structure_witness :
  is_Some (at_loc schema_XYZ ([0] ++ [0; 0])) ∧
  walker (walk_loop 2 schema_XYZ (parent_map_of schema_XYZ) [0] "X"
            (MkWalk (Some ([0] ++ [0; 0])) [] [] "as_parent")) = Some [0].
Proof.
  assert (is_Some (at_loc schema_XYZ ([0] ++ [0; 0]))) as Hv by (by eexists).
  split; [exact Hv|].
  exact (proj1 (walk_ends_at_structure schema_XYZ [0] [0; 0] "X"
                  (MkWalk (Some ([0] ++ [0; 0])) [] [] "as_parent") 2
                  Hv eq_refl ltac:(simpl; lia))).
Defined.

Lemma names_down_to_own_name (root : Element) (n : nat) (l : Loc) (name : string) :
  name_at root l = Some name → names_down_to root (S n) l ≠ [].
Proof. intros Hname. simpl. rewrite Hname. simpl. by intros [_ [=]]%app_eq_nil. Qed.

Lemma build_element_entry_names (root : Element) (ids_node rel : Loc) (ids_name : string) :
  is_Some (at_loc root (ids_node ++ rel)) →
  let names := names_down_to root (length rel) (ids_node ++ rel) in
  let entry := _build_element_entry root (ids_node ++ rel) ids_node ids_name
                 (parent_map_of root) in
  (entry = None ↔ names = [])
  ∧ (∀ record, entry = Some record →
       Py.get record "path" = Some (ids_name +:+ "/" +:+ join "/" names))
  ∧ (rel ≠ [] → is_Some (name_at root (ids_node ++ rel)) → is_Some entry).
Proof.
  intros Hv names entry.
  set (st0 := MkWalk (Some (ids_node ++ rel)) [] []
                (ET.get_default root (ids_node ++ rel) "units" "")).
  destruct (walk_loop_path_parts root ids_node ids_name (length rel)
              (walk_fuel (ids_node ++ rel)) rel st0)
    as [_ Hpp]; [done| |done..|].
  { unfold walk_fuel. rewrite length_app. lia. }
  change (path_parts st0) with (@nil string) in Hpp.
  rewrite app_nil_r in Hpp. fold names in Hpp.
  assert (entry = None ↔ names = []) as Hnone.
  { unfold entry, _build_element_entry. cbv zeta. fold st0. rewrite Hpp. by destruct names. }
  split_and!; [done| |].
  - intros record (Hpath & _)%build_element_entry_Some. fold st0 in Hpath.
    by rewrite Hpath, Hpp.
  - intros Hne [name Hname]. destruct entry eqn:He; [by eexists|]. exfalso.
    assert (names = []) as Hn by (by apply Hnone). unfold names in Hn.
    destruct rel as [|i rel]; [done|]. by eapply names_down_to_own_name.
Qed.

(** X10: the path of the record of an element below a structure is the name
    of the structure followed by the non-empty names from the structure
    down to the element, elements without a name skipped; there is no record
    exactly when no element on the way has a name, and so an element with a
    non-empty name always has one. *)
Theorem entry_path_names (root : Element) (ids_node rel : Loc) (ids_name : string) :
  is_Some (at_loc root (ids_node ++ rel)) →
  let names := names_down_to root (length rel) (ids_node ++ rel) in
  let entry := _build_element_entry root (ids_node ++ rel) ids_node ids_name
                 (parent_map_of root) in
  (entry = None ↔ names = [])
  ∧ (∀ record, entry = Some record →
       Py.get record "path" = Some (ids_name +:+ "/" +:+ join "/" names))
  ∧ (rel ≠ [] → is_Some (name_at root (ids_node ++ rel)) → is_Some entry).
Proof. apply build_element_entry_names. Qed.

Lemma entry_path_names_witness :
  is_Some (at_loc schema_unnamed ([0] ++ [0; 0])) ∧
  ∀ record,
    _build_element_entry schema_unnamed ([0] ++ [0; 0]) [0] "X" (parent_map_of schema_unnamed)
    = Some record →
    Py.get record "path"
    = Some ("X" +:+ "/" +:+ join "/" (names_down_to schema_unnamed 2 ([0] ++ [0; 0]))).
Proof.
  assert (is_Some (at_loc schema_unnamed ([0] ++ [0; 0]))) as Hv by (by eexists).
  split; [exact Hv|].
  exact (proj1 (proj2 (entry_path_names schema_unnamed [0] [0; 0] "X" Hv))).
Defined.

(** ** The records of the extractor, counted and selected *)

Lemma findall_named_has_name (root : Element) (node elem : Loc) :
  elem ∈ findall_named root node → is_Some (ET.get root elem "name").
Proof.
  unfold findall_named. destruct (at_loc root node); [|by intros ?%elem_of_nil].
  by intros [? _]%list_elem_of_filter.
Qed.

Lemma length_omap_le {A B : Type} (f : A → option B) (l : list A) :
  length (omap f l) ≤ length l.
Proof.
  unfold omap. induction l as [|x l IH]; simpl; [done|]. destruct (f x); simpl; lia.
Qed.

Lemma length_omap_all {A B : Type} (f : A → option B) (l : list A) :
  (∀ x, x ∈ l → is_Some (f x)) → length (omap f l) = length l.
Proof.
  unfold omap. induction l as [|x l IH]; intros Hall; simpl; [done|].
  destruct (Hall x) as [y ->]; [by left|]. simpl. rewrite IH; [done|].
  intros. apply Hall. by right.
Qed.

Lemma total_fold_le (root : Element) (g : Loc → list Dict) (nodes : list Loc) (acc : nat) :
  (∀ node, node ∈ nodes → length (g node) ≤ 1 + length (findall_named root node)) →
  acc + length (flat_map g nodes)
  ≤ foldl (λ total_elements ids_node,
             total_elements + 1 + length (findall_named root ids_node)) acc nodes.
Proof.
  revert acc. induction nodes as [|node nodes IH]; intros acc Hg; simpl; [lia|].
  rewrite length_app. etrans; [|apply IH; intros; apply Hg; by right].
  specialize (Hg node ltac:(by left)). lia.
Qed.

Lemma total_fold_eq (root : Element) (g : Loc → list Dict) (nodes : list Loc) (acc : nat) :
  (∀ node, node ∈ nodes → length (g node) = 1 + length (findall_named root node)) →
  acc + length (flat_map g nodes)
  = foldl (λ total_elements ids_node,
             total_elements + 1 + length (findall_named root ids_node)) acc nodes.
Proof.
  revert acc. induction nodes as [|node nodes IH]; intros acc Hg; simpl; [lia|].
  rewrite length_app, <- IH by (intros; apply Hg; by right).
  specialize (Hg node ltac:(by left)). lia.
Qed.

Lemma ids_documents_length_le (root : Element) (node : Loc) :
  length (ids_documents root (parent_map_of root) node)
  ≤ 1 + length (findall_named root node).
Proof.
  unfold ids_documents. destruct (ET.get root node "name") as [n|]; simpl; [|lia].
  destruct (truthy n); simpl; [|lia]. pose proof (length_omap_le
    (λ elem, _build_element_entry root elem node n (parent_map_of root))
    (findall_named root node)). lia.
Qed.

(** X11: the extractor yields at most as many records as [_total_elements]
    counts, and exactly as many when no element of the schema carries an
    empty name. *)
Theorem documents_within_total (root : Element) (ids_set : option (gset string)) :
  length (_get_document root ids_set) ≤ _total_elements root ids_set
  ∧ ((∀ l, ET.get root l "name" ≠ Some "") →
     length (_get_document root ids_set) = _total_elements root ids_set).
Proof.
  unfold _get_document, _total_elements. cbv zeta. split.
  - etrans; [|apply (total_fold_le root (ids_documents root (parent_map_of root)))].
    + simpl. done.
    + intros. apply ids_documents_length_le.
  - intros Hnamed.
    rewrite <- (total_fold_eq root (ids_documents root (parent_map_of root))); [done|].
    intros node [Hsel Hnode]%list_elem_of_filter.
    unfold name_in in Hsel. unfold ids_documents.
    destruct (ET.get root node "name") as [n|] eqn:Hn; [|done].
    assert (truthy n = true) as -> by (apply truthy_nonempty; intros ->; by eapply Hnamed).
    simpl. f_equal. apply length_omap_all. intros elem Helem.
    destruct (findall_named_has_name _ _ _ Helem) as [name Hname].
    apply findall_named_elem in Helem as (rel & -> & Hne & Hv).
    apply (build_element_entry_names root node rel n Hv); [done|].
    unfold name_at. rewrite Hname.
    assert (truthy name = true) as -> by (apply truthy_nonempty; intros ->; by eapply Hnamed).
    by eexists.
Qed.

Lemma ids_documents_ids_name (root : Element) (node : Loc) (n : string) (r : Dict) :
  ET.get root node "name" = Some n →
  r ∈ ids_documents root (parent_map_of root) node →
  Py.get r "ids_name" = Some n.
Proof.
  intros Hn. unfold ids_documents. rewrite Hn. destruct (truthy n); [|by intros ?%elem_of_nil].
  intros [->|Hr]%elem_of_cons; [done|].
  apply list_elem_of_omap in Hr as (elem & _ & Hentry).
  by apply build_element_entry_Some in Hentry as (_ & _ & ?).
Qed.

Lemma filter_all {A : Type} (P : A → Prop) `{∀ x, Decision (P x)} (l : list A) :
  (∀ x, x ∈ l → P x) → filter P l = l.
Proof.
  induction l as [|x l IH]; intros Hall; [done|].
  rewrite filter_cons_True by (apply Hall; by left).
  f_equal. apply IH. intros. apply Hall. by right.
Qed.

Lemma filter_none {A : Type} (P : A → Prop) `{∀ x, Decision (P x)} (l : list A) :
  (∀ x, x ∈ l → ¬ P x) → filter P l = [].
Proof.
  induction l as [|x l IH]; intros Hall; [done|].
  rewrite filter_cons_False by (apply Hall; by left).
  apply IH. intros. apply Hall. by right.
Qed.

Lemma flat_map_filter_skip {A B : Type} (f : A → list B) (P : A → Prop)
    `{∀ x, Decision (P x)} (x : A) (l : list A) :
  f x = [] → flat_map f (filter P (x :: l)) = flat_map f (filter P l).
Proof.
  intros Hx. destruct (decide (P x)).
  - by rewrite filter_cons_True, flat_map_step, Hx.
  - by rewrite filter_cons_False.
Qed.

(** X12: extracting a configured set of structures gives exactly the
    records of the full extraction whose [ids_name] is in the set, in the
    same order. *)
Theorem selection_filters_full_extraction (root : Element) (s : gset string) :
  _get_document root (Some s)
  = filter (λ r, ids_name_in s r) (_get_document root None).
Proof.
  unfold _get_document. cbv zeta.
  assert (∀ node, node ∈ findall_IDS_named root [] → node ∈ findall_IDS_named root [])
    as Hnodes by done.
  revert Hnodes. generalize (findall_IDS_named root []) at 1 3 4. intros nodes Hnodes.
  induction nodes as [|node nodes IH]; [done|].
  assert (∀ x, x ∈ nodes → x ∈ findall_IDS_named root []) as Hrest
    by (intros; apply Hnodes; by right).
  specialize (IH Hrest).
  destruct (ET.get root node "name") as [n|] eqn:Hn.
  - destruct (truthy n) eqn:Ht.
    + assert (name_in root (_get_ids_set root None) node) as Hall.
      { unfold name_in. rewrite Hn. apply bool_decide_pack.
        unfold _get_ids_set. apply get_ids_set_fold. right. exists node.
        split_and!; [by apply Hnodes; left|done|by apply truthy_nonempty]. }
      rewrite (filter_cons_True _ node nodes Hall). rewrite flat_map_step, filter_app, <- IH.
      destruct (decide (n ∈ s)) as [Hs|Hs].
      * rewrite filter_cons_True by (unfold name_in; rewrite Hn; by apply bool_decide_pack).
        rewrite flat_map_step. f_equal. symmetry. apply filter_all. intros r Hr.
        unfold ids_name_in. rewrite (ids_documents_ids_name root node n r Hn Hr).
        by apply bool_decide_pack.
      * rewrite filter_cons_False
          by (unfold name_in; rewrite Hn; intros ?%bool_decide_unpack; done).
        rewrite (filter_none (λ r, ids_name_in s r)); [done|]. intros r Hr.
        unfold ids_name_in. rewrite (ids_documents_ids_name root node n r Hn Hr).
        by intros ?%bool_decide_unpack.
    + assert (ids_documents root (parent_map_of root) node = []) as Hempty.
      { unfold ids_documents. by rewrite Hn, Ht. }
      rewrite !(flat_map_filter_skip _ _ node nodes Hempty). exact IH.
  - rewrite !filter_cons_False by (unfold name_in; rewrite Hn; by intros H). exact IH.
Qed.

Lemma get_document_acceptable (root : Element) (ids_set : option (gset string)) (r : Dict) :
  r ∈ _get_document root ids_set → acceptable r = true.
Proof.
  intros (ids_node & ids_name & _ & _ & Hne & _ & Hrec)%get_document_elem.
  assert (∃ c rest, ids_name = String c rest) as (c & rest & ->)
    by (destruct ids_name; [done|by eauto]).
  destruct Hrec as [->|(rel & _ & _ & Hentry)]; [done|].
  unfold _build_element_entry in Hentry. cbv zeta in Hentry.
  destruct (path_parts _); [done|]. by injection Hentry as <-.
Qed.

(** X13: no extracted record is dropped by the batcher for its shape: each
    has a non-empty path and the three keys, the concatenated batches are
    the extracted records with every repeated path removed, and every
    extracted path is in exactly one yielded record. *)
Theorem extracted_paths_batched_once (root : Element) (ids_set : option (gset string))
    (batch_size : Z) :
  let documents := _get_document root ids_set in
  let out := concat (_get_document_batch root ids_set batch_size) in
  Forall (λ r, acceptable r = true) documents
  ∧ sublist out documents
  ∧ NoDup ((λ r, Py.get r "path") <$> out)
  ∧ ∀ r, r ∈ documents → Py.get r "path" ∈ (λ r, Py.get r "path") <$> out.
Proof.
  intros documents out. unfold out, _get_document_batch. fold documents.
  rewrite batches_concat. split_and!.
  - apply Forall_forall. intros r. apply get_document_acceptable.
  - apply dedup_first_sublist.
  - apply dedup_first_NoDup.
  - intros r Hr. pose proof (get_document_acceptable _ _ _ Hr) as Hacc.
    destruct (dedup_first_covers [] documents r Hr Hacc)
      as [(r' & ?%elem_of_nil & _)|(r' & Hr' & Hp)]; [done|].
    apply list_elem_of_fmap. by exists r'.
Qed.

Lemma schema_XYZ_named (l : Loc) : ET.get schema_XYZ l "name" ≠ Some "".
Proof.
  unfold ET.get.
  destruct l as [|[|i] [|[|j] [|[|k] [|m l]]]]; simpl; try done.
  all: by destruct l.
Qed.

Lemma documents_within_total_witness :
  (∀ l, ET.get schema_XYZ l "name" ≠ Some "") ∧
  length (_get_document schema_XYZ None) = _total_elements schema_XYZ None.
Proof.
  split; [exact schema_XYZ_named|].
  exact (proj2 (documents_within_total schema_XYZ None) schema_XYZ_named).
Defined.

(** ** The sections of the composer *)



(** ** The size of a batch *)

Lemma batch_loop_sizes (batch_size : Z) (stream buf : list Dict) (seen : gset string)
    (batch : list Dict) :
  (Z.of_nat (length buf) < Z.max 1 batch_size)%Z →
  batch ∈ batch_loop batch_size stream buf seen →
  1 ≤ length batch ∧ (Z.of_nat (length batch) ≤ Z.max 1 batch_size)%Z.
Proof.
  revert buf seen. induction stream as [|r rest IH]; intros buf seen Hbuf; simpl.
  - destruct buf as [|b buf]; [by intros ?%elem_of_nil|].
    intros ->%list_elem_of_singleton. simpl in *. lia.
  - destruct (_ || _); [by apply IH|]. destruct (has_required_keys r); [|by apply IH].
    destruct (_ <=? _)%Z eqn:Hfull.
    + intros [->|Hin]%elem_of_cons.
      * apply Z.leb_le in Hfull. rewrite length_app in *. simpl in *. lia.
      * eapply IH; [|exact Hin]. simpl. lia.
    + apply Z.leb_gt in Hfull. apply IH. lia.
Qed.

(** X15: whatever the batch size, positive or not, no yielded batch is
    empty and none holds more records than the batch size, or than one when
    the batch size is below one. *)
Theorem batch_never_empty (batch_size : Z) (stream : list Dict) (batch : list Dict) :
  batch ∈ batches batch_size stream →
  1 ≤ length batch ∧ (Z.of_nat (length batch) ≤ Z.max 1 batch_size)%Z.
Proof. apply batch_loop_sizes. simpl. lia. Qed.

Lemma batch_never_empty_witness :
  take 2 stream_five ∈ batches 2 stream_five ∧ 1 ≤ length (take 2 stream_five).
Proof.
  assert (take 2 stream_five ∈ batches 2 stream_five) as H by (vm_compute; left).
  split; [exact H|]. exact (proj1 (batch_never_empty 2 stream_five _ H)).
Defined.

(** ** The documentation of a record *)

Lemma set_values (d : Dict) (k v : string) (P : string → Prop) :
  P v → Forall (λ kv, P kv.2) d → Forall (λ kv, P kv.2) (Py.set d k v).
Proof.
  intros Hv. induction 1 as [|[k' v'] d Hkv Hd IH]; simpl.
  - by repeat constructor.
  - destruct (String.eqb k' k); by constructor.
Qed.

Lemma set_not_nil (d : Dict) (k v : string) : Py.set d k v ≠ [].
Proof. destruct d as [|[k' v'] d]; simpl; [done|]. by destruct (String.eqb k' k). Qed.

Lemma get_of_key (d : Dict) (k : string) :
  k ∈ keys d → ∃ v, Py.get d k = Some v ∧ (∃ k', (k', v) ∈ d).
Proof.
  unfold keys. induction d as [|[k' v'] d IH]; simpl; [by intros ?%elem_of_nil|].
  destruct (String.eqb k' k) eqn:Heq.
  - intros _. exists v'. split; [done|]. exists k'. by left.
  - intros [Hk|Hin]%elem_of_cons.
    + simpl in Hk. subst. by rewrite String.eqb_refl in Heq.
    + destruct (IH Hin) as (v & Hv & k'' & Hkv). exists v. split; [done|].
      exists k''. by right.
Qed.

Lemma walk_step_docs (root : Element) (pm : gmap Loc Loc) (ids_name : string)
    (w : Loc) (st : Walk) :
  Forall (λ kv, kv.2 ≠ "") (documentation_parts st) →
  Forall (λ kv, kv.2 ≠ "") (documentation_parts (walk_step root pm ids_name w st)).
Proof.
  intros Hst. unfold walk_step.
  destruct (ET.get root w "name") as [name|]; [destruct (truthy name)|]; [|done..].
  destruct (ET.get root w "documentation") as [doc|]; [|done].
  destruct (truthy doc) eqn:Hdoc; [|done]. simpl.
  apply (set_values _ _ _ (λ v, v ≠ "")); [by apply truthy_nonempty|done].
Qed.

Lemma walk_loop_docs (root : Element) (pm : gmap Loc Loc) (ids_node : Loc)
    (ids_name : string) (fuel : nat) (st : Walk) :
  Forall (λ kv, kv.2 ≠ "") (documentation_parts st) →
  Forall (λ kv, kv.2 ≠ "")
    (documentation_parts (walk_loop fuel root pm ids_node ids_name st)).
Proof.
  revert st. induction fuel as [|fuel IH]; intros st Hst; simpl; [done|].
  destruct (walker st) as [w|]; [|done]. destruct (decide (w = ids_node)); [done|].
  by apply IH, walk_step_docs.
Qed.

Lemma compose_nonempty (parts : Dict) :
  parts ≠ [] → Forall (λ kv, kv.2 ≠ "") parts →
  ∃ leaf rest, deepest_path parts = Some leaf
    ∧ _build_hierarchical_documentation parts = "**" +:+ leaf +:+ rest.
Proof.
  intros Hne Hvals. destruct (deepest_path_is_Some parts Hne) as [leaf Hleaf].
  assert (leaf ∈ keys parts) as Hin.
  { rewrite <- paths_by_depth_perm, paths_by_depth_split, Hleaf.
    apply elem_of_app. right. by left. }
  destruct (get_of_key parts leaf Hin) as (doc & Hdoc & k' & Hkv).
  assert (doc ≠ "") as Hdoc_ne.
  { rewrite Forall_forall in Hvals. exact (Hvals (k', doc) Hkv). }
  exists leaf. destruct parts as [|kv parts]; [done|].
  unfold _build_hierarchical_documentation, doc_sections. rewrite Hleaf.
  unfold Py.get_default. rewrite Hdoc. apply truthy_nonempty in Hdoc_ne as ->. simpl app.
  destruct (join_cons_prefix (nl +:+ nl) (leaf_block leaf doc)
    match remaining_paths (kv :: parts) with
    | [] => []
    | _ :: _ => context_header
                :: context_blocks (kv :: parts) (remaining_paths (kv :: parts))
    end) as [rest Hrest].
  exists ("**" +:+ nl +:+ doc +:+ rest). split; [done|].
  rewrite Hrest. unfold leaf_block. by rewrite !append_assoc.
Qed.

Lemma get_set_same (d : Dict) (k v : string) : Py.get (Py.set d k v) k = Some v.
Proof.
  induction d as [|[k' v'] d IH]; simpl.
  - by rewrite String.eqb_refl.
  - destruct (String.eqb k' k) eqn:Heq; simpl; by rewrite Heq.
Qed.

(** X16: when the top-level structure has a non-empty documentation, the
    documentation of each of its descendant records is the output of the
    composer on the map collected for the element, which holds the text of
    the structure under its name and no empty text; this output begins with
    the deepest path of the map in bold, so it is not empty and the raw
    attribute of the element is not used in its place. *)
Theorem documented_structure_composes (root : Element) (elem ids_node : Loc)
    (ids_name ids_doc : string) (record : Dict) :
  ET.get root ids_node "documentation" = Some ids_doc → ids_doc ≠ "" →
  _build_element_entry root elem ids_node ids_name (parent_map_of root) = Some record →
  let parts := collected_parts root elem ids_node ids_name (parent_map_of root) in
  let composed := _build_hierarchical_documentation parts in
  Py.get record "documentation" = Some composed
  ∧ Py.get parts ids_name = Some ids_doc
  ∧ Forall (λ kv, kv.2 ≠ "") parts
  ∧ composed ≠ ""
  ∧ ∃ leaf rest, deepest_path parts = Some leaf ∧ composed = "**" +:+ leaf +:+ rest.
Proof.
  intros Hdoc Hne Hentry parts composed.
  apply truthy_nonempty in Hne as Ht.
  assert (parts = Py.set (documentation_parts
            (walk_loop (walk_fuel elem) root (parent_map_of root) ids_node ids_name
               (MkWalk (Some elem) [] [] (ET.get_default root elem "units" ""))))
            ids_name ids_doc) as Hparts.
  { unfold parts, collected_parts. cbv zeta. rewrite Hdoc. simpl. by rewrite Ht. }
  assert (Forall (λ kv, kv.2 ≠ "") parts) as Hvals.
  { rewrite Hparts. apply (set_values _ _ _ (λ v, v ≠ "")); [by apply truthy_nonempty|].
    apply walk_loop_docs. constructor. }
  destruct (compose_nonempty parts) as (leaf & rest & Hleaf & Hcomposed);
    [rewrite Hparts; apply set_not_nil|done|].
  fold composed in Hcomposed.
  assert (truthy composed = true) as Htc by (by rewrite Hcomposed).
  split_and!.
  - revert Hentry. unfold _build_element_entry. cbv zeta.
    fold (collected_parts root elem ids_node ids_name (parent_map_of root)).
    fold parts. fold composed. destruct (path_parts _); [done|].
    intros [= <-]. simpl. by rewrite Htc.
  - rewrite Hparts. apply get_set_same.
  - done.
  - by apply truthy_nonempty.
  - by exists leaf, rest.
Qed.

Lemma documented_structure_composes_witness :
  ET.get schema_XYZ [0] "documentation" = Some "root doc" ∧ "root doc" ≠ "" ∧
  _build_element_entry schema_XYZ [0; 0; 0] [0] "X" (parent_map_of schema_XYZ)
  = Some record_XYZ ∧
  Py.get record_XYZ "documentation"
  = Some (_build_hierarchical_documentation
            (collected_parts schema_XYZ [0; 0; 0] [0] "X" (parent_map_of schema_XYZ))).
Proof.
  assert (ET.get schema_XYZ [0] "documentation" = Some "root doc") as H1 by reflexivity.
  assert ("root doc" ≠ "") as H2 by discriminate.
  assert (_build_element_entry schema_XYZ [0; 0; 0] [0] "X" (parent_map_of schema_XYZ)
          = Some record_XYZ) as H3 by (vm_compute; reflexivity).
  split_and!; [exact H1|exact H2|exact H3|].
  exact (proj1 (documented_structure_composes schema_XYZ [0; 0; 0] [0] "X" "root doc"
                  record_XYZ H1 H2 H3)).
Defined.
